(** * QRGenPro: the QR engine, the presets and the batch worker

    A shallow embedding of [src/QRGenPro.py] (classes [QREngine], [Presets]
    and [BatchWorker], with the [ERROR_LEVELS] table and the [QRConfig]
    dataclass), and the properties of it that the specification states.

    Python values are modelled as follows.
    - [str] is a list of Unicode code points.
    - A call that may raise returns an [outcome]: [Return v] or [Raise e].
    - A PIL image is its size and its row-major pixel data ([getdata]).
    - The libraries the program calls ([os.path], [qrcode], [PIL], [re],
      [str.format]) are the fields of a record [Lib]; what the program itself
      computes is defined here. *)

From Stdlib Require Import ZArith NArith List String Ascii Bool Lia.
From Stdlib Require Import Floats.SpecFloat Floats.PrimFloat Floats.FloatOps.
Import ListNotations.
Local Open Scope Z_scope.

(* ------------------------------------------------------------------ *)
(** ** Python strings and exceptions *)

Module Py.

(** A Python [str]: a sequence of code points. *)
Definition str := list N.

(** A string literal of the source (all of them are ASCII). *)
Definition lit (s : string) : str :=
  map (fun a => N_of_ascii a) (list_ascii_of_string s).

Definition str_eqb (a b : str) : bool :=
  if list_eq_dec N.eq_dec a b then true else false.

(** Truth value of a string: [if s] / [not s]. *)
Definition truthy (s : str) : bool :=
  match s with [] => false | _ :: _ => true end.

(** The code points [str.strip()] removes (those with [str.isspace]). *)
Definition isspace (c : N) : bool :=
  (((9 <=? c) && (c <=? 13)) || ((28 <=? c) && (c <=? 32))
   || (c =? 133) || (c =? 160) || (c =? 5760)
   || ((8192 <=? c) && (c <=? 8202))
   || (c =? 8232) || (c =? 8233) || (c =? 8239) || (c =? 8287)
   || (c =? 12288))%N.

Fixpoint lstrip (s : str) : str :=
  match s with
  | [] => []
  | c :: s' => if isspace c then lstrip s' else s
  end.

Definition rstrip (s : str) : str := rev (lstrip (rev s)).

Definition strip (s : str) : str := rstrip (lstrip s).

(** Slice [s[:n]]. *)
Definition prefix (n : nat) (s : str) : str := firstn n s.

(** [s.endswith(t)]. *)
Definition endswith (s t : str) : bool :=
  (List.length t <=? List.length s)%nat
  && str_eqb (skipn (List.length s - List.length t) s) t.

(** Exceptions: the class the program itself raises, and any other
    subclass of [Exception] coming out of a library. *)
Inductive exn : Type :=
| ValueError (msg : str)
| OtherException (cls msg : str).

(** [str(e)], as the f-string [{e}] prints it. *)
Definition exn_str (e : exn) : str :=
  match e with
  | ValueError msg => msg
  | OtherException _ msg => msg
  end.

Inductive outcome (A : Type) : Type :=
| Return (a : A)
| Raise (e : exn).
Arguments Return {A} a.
Arguments Raise {A} e.

Definition bind {A B} (m : outcome A) (k : A -> outcome B) : outcome B :=
  match m with
  | Return a => k a
  | Raise e => Raise e
  end.

(** [try: body  except Exception: handler]. *)
Definition try_except {A} (body : outcome A) (handler : exn -> outcome A) : outcome A :=
  match body with
  | Return a => Return a
  | Raise e => handler e
  end.

End Py.
Import Py.

Notation "x <- m ;; k" := (bind m (fun x => k))
  (at level 61, m at next level, right associativity).

(* ------------------------------------------------------------------ *)
(** ** The part of PIL the program uses *)

Module PIL.

(** An RGBA pixel [(r, g, b, a)], each band an unsigned byte. *)
Definition pixel := (Z * Z * Z * Z)%type.

Definition band_r (p : pixel) : Z := let '(r, _, _, _) := p in r.
Definition band_g (p : pixel) : Z := let '(_, g, _, _) := p in g.
Definition band_b (p : pixel) : Z := let '(_, _, b, _) := p in b.
Definition band_a (p : pixel) : Z := let '(_, _, _, a) := p in a.

(** An image in mode RGBA: [size] and the flattened pixel rows. *)
Record image : Type := mkImage {
  size_w : Z;
  size_h : Z;
  getdata : list pixel
}.

(** [im.putdata(data)] for data of the image's own length. *)
Definition putdata (im : image) (data : list pixel) : image :=
  mkImage (size_w im) (size_h im) data.

(** [Image.new("RGBA", (w, h), color)]. *)
Definition Image_new (w h : Z) (color : pixel) : image :=
  mkImage w h (repeat color (Z.to_nat (w * h))).

Definition in_image (im : image) (x y : Z) : bool :=
  (0 <=? x) && (x <? size_w im) && (0 <=? y) && (y <? size_h im).

Definition getpixel (im : image) (x y : Z) : pixel :=
  nth (Z.to_nat (y * size_w im + x)) (getdata im) (0, 0, 0, 0).

Fixpoint mapi_from {A B} (f : nat -> A -> B) (i : nat) (l : list A) : list B :=
  match l with
  | [] => []
  | a :: l' => f i a :: mapi_from f (S i) l'
  end.

(** Pillow's 8-bit blend (ImagingUtils.h): [DIV255] divides by 255 with
    rounding, [BLEND8] mixes [in1] and [in2] by [mask]; the result is stored
    in a UINT8. *)
Definition DIV255 (a : Z) : Z :=
  let tmp := a + 128 in Z.shiftr (Z.shiftr tmp 8 + tmp) 8.

Definition BLEND8 (mask in1 in2 : Z) : Z :=
  (DIV255 (in1 * (255 - mask) + in2 * mask)) mod 256.

Definition blend_pixel (mask : Z) (out inp : pixel) : pixel :=
  (BLEND8 mask (band_r out) (band_r inp),
   BLEND8 mask (band_g out) (band_g inp),
   BLEND8 mask (band_b out) (band_b inp),
   BLEND8 mask (band_a out) (band_a inp)).

(** [dst.paste(src, (dx, dy), mask)] with an RGBA mask of the size of [src]:
    inside the box of [src] placed at [(dx, dy)] and clipped to [dst], every
    band of [dst] is blended with [src] by the alpha band of [mask]. *)
Definition paste (dst src : image) (box : Z * Z) (mask : image) : image :=
  let '(dx, dy) := box in
  putdata dst
    (mapi_from
       (fun i out =>
          let x := Z.of_nat i mod size_w dst in
          let y := Z.of_nat i / size_w dst in
          if in_image src (x - dx) (y - dy)
          then blend_pixel (band_a (getpixel mask (x - dx) (y - dy))) out
                           (getpixel src (x - dx) (y - dy))
          else out)
       0%nat (getdata dst)).

(** [im.copy()]: images are values here. *)
Definition copy (im : image) : image := im.

End PIL.
Import PIL.

(* ------------------------------------------------------------------ *)
(** ** Python floats (IEEE 754 binary64), for [int(min(w, h) * 0.22)] *)

Module PyFloat.

Definition prec : Z := 53.
Definition emax : Z := 1024.

(** The float literal [0.22]: the double nearest to 22/100,
    7926335344172073 * 2^-55 ([0x1.c28f5c28f5c29p-3]). *)
Definition float_0_22 : spec_float := S754_finite false 7926335344172073 (-55).

(** [float(n)], as the mixed product [n * 0.22] converts its int operand:
    correctly rounded, [OverflowError] beyond the range of a double. *)
Definition float_of_int (n : Z) : outcome spec_float :=
  match binary_normalize prec emax n 0 false with
  | S754_infinity _ | S754_nan =>
      Raise (OtherException (lit "OverflowError") (lit "int too large to convert to float"))
  | f => Return f
  end.

Definition float_mul (x y : spec_float) : spec_float := SFmul prec emax x y.

(** [int(f)]: truncation towards zero; it raises on an infinity or a NaN. *)
Definition int_of_float (f : spec_float) : outcome Z :=
  match f with
  | S754_zero _ => Return 0
  | S754_finite s m e =>
      let v := if 0 <=? e then Zpos m * 2 ^ e else Zpos m / 2 ^ (- e) in
      Return (if s then - v else v)
  | S754_infinity _ =>
      Raise (OtherException (lit "OverflowError") (lit "cannot convert float infinity to integer"))
  | S754_nan => Raise (ValueError (lit "cannot convert float NaN to integer"))
  end.

End PyFloat.
Import PyFloat.

(* ------------------------------------------------------------------ *)
(** ** Module-level data of QRGenPro.py *)

(** [qrcode.constants]: the error-correction levels, numbered as the QR
    standard's two-bit level indicator numbers them (the package is imported
    by the program, line 31; these are its values). *)
Definition ERROR_CORRECT_L : Z := 1.
Definition ERROR_CORRECT_M : Z := 0.
Definition ERROR_CORRECT_Q : Z := 3.
Definition ERROR_CORRECT_H : Z := 2.

(** The dict [ERROR_LEVELS], in source order. *)
Definition ERROR_LEVELS : list (str * Z) :=
  [ (lit "L - 7% (Fast)", ERROR_CORRECT_L);
    (lit "M - 15% (Standard)", ERROR_CORRECT_M);
    (lit "Q - 25% (High)", ERROR_CORRECT_Q);
    (lit "H - 30% (Maximum)", ERROR_CORRECT_H) ].

(** [d.get(key, default)]. *)
Fixpoint dict_get {V} (d : list (str * V)) (key : str) (default : V) : V :=
  match d with
  | [] => default
  | (k, v) :: d' => if str_eqb k key then v else dict_get d' key default
  end.

(** The dataclass [QRConfig]. *)
Record QRConfig : Type := mkQRConfig {
  content : str;
  box_size : Z;
  error_correction : str;
  qr_color : str;
  bg_color : str;
  transparent_bg : bool;
  auto_optimize : bool;
  quiet_zone : bool;
  logo_path : str
}.

(** The recoverable share of a level, in percent: the order the
    specification's four tiers are in (7 < 15 < 25 < 30). *)
Definition tier_percent (ecc : Z) : Z :=
  if ecc =? ERROR_CORRECT_L then 7
  else if ecc =? ERROR_CORRECT_M then 15
  else if ecc =? ERROR_CORRECT_Q then 25
  else if ecc =? ERROR_CORRECT_H then 30
  else 0.

(* ------------------------------------------------------------------ *)
(** ** The libraries the program calls *)

Record Lib : Type := mkLib {
  (** [os.path.exists(path)] *)
  os_path_exists : str -> bool;
  (** [qrcode.QRCode(version, error_correction, box_size, border)], then
      [add_data(content)], [make(fit=True)] and
      [make_image(fill_color, back_color).convert("RGBA")] *)
  qrcode_make_image : option Z -> Z -> Z -> Z -> str -> str -> str -> outcome image;
  (** [ImageColor.getrgb(color)], its red, green and blue components *)
  ImageColor_getrgb : str -> outcome (Z * Z * Z);
  (** [Image.open(path).convert("RGBA")] *)
  Image_open : str -> outcome image;
  (** what [Image.thumbnail(size, LANCZOS)] does to an image that does not
      fit [size]: the aspect-preserving resize *)
  thumbnail_resize : image -> Z * Z -> outcome image;
  (** the class [\w] of [re] *)
  re_word : N -> bool;
  (** [template.format(index=idx, content=text)] *)
  str_format : str -> nat -> str -> outcome str;
  (** [s.lower()] *)
  str_lower : str -> str;
  (** [str(output_dir / name)] *)
  path_join : str -> str -> str;
  (** [img.save(path, "PNG")] *)
  save_png : image -> str -> outcome unit;
  (** [img.convert("RGB").save(path, "JPEG", quality=q)] *)
  save_jpeg : image -> str -> Z -> outcome unit
}.

(* ------------------------------------------------------------------ *)
(** ** class QREngine *)

Section Engine.
Variable L : Lib.

(** [logo.thumbnail(size, LANCZOS)]: an image that fits is left as it is. *)
Definition thumbnail (im : image) (size : Z * Z) : outcome image :=
  let '(x, y) := size in
  if (size_w im <=? x) && (size_h im <=? y) then Return im
  else thumbnail_resize L im size.

(** [max_dim = int(min(w, h) * 0.22)]. *)
Definition max_dim_of (w h : Z) : outcome Z :=
  f <- float_of_int (Z.min w h) ;;
  int_of_float (float_mul f float_0_22).

(** The white pad with the logo pasted at (4, 4) through its own alpha. *)
Definition make_pad (logo : image) : image :=
  let pad := Image_new (size_w logo + 8) (size_h logo + 8) (255, 255, 255, 255) in
  paste pad logo (4, 4) logo.

(** Where the pad goes: [((w - pw) // 2, (h - ph) // 2)]. *)
Definition pad_pos (qr_img pad : image) : Z * Z :=
  ((size_w qr_img - size_w pad) / 2, (size_h qr_img - size_h pad) / 2).

(** The [try] block of [add_logo]. *)
Definition add_logo_try (qr_img : image) (logo_path : str) : outcome image :=
  logo <- Image_open L logo_path ;;
  max_dim <- max_dim_of (size_w qr_img) (size_h qr_img) ;;
  logo <- thumbnail logo (max_dim, max_dim) ;;
  let pad := make_pad logo in
  let pos := pad_pos qr_img pad in
  let result := copy qr_img in
  Return (paste result pad pos pad).

(** [QREngine.add_logo]. *)
Definition add_logo (qr_img : image) (logo_path : str) : outcome image :=
  try_except (add_logo_try qr_img logo_path) (fun _ => Return qr_img).

(** [config.logo_path and os.path.exists(config.logo_path)]. *)
Definition has_logo (config : QRConfig) : bool :=
  truthy (logo_path config) && os_path_exists L (logo_path config).

(** Step 1 of [generate]: the error-correction level handed to the encoder. *)
Definition effective_ecc (config : QRConfig) : Z :=
  let ecc := dict_get ERROR_LEVELS (error_correction config) ERROR_CORRECT_M in
  if has_logo config then
    if ecc <? ERROR_CORRECT_Q then ERROR_CORRECT_Q else ecc
  else ecc.

(** Step 2: the encoder's rendering, always on a solid background. *)
Definition render (config : QRConfig) : outcome image :=
  qrcode_make_image L
    (if auto_optimize config then None else Some 4)
    (effective_ecc config)
    (box_size config)
    (if quiet_zone config then 4 else 1)
    (content config)
    (qr_color config)
    (bg_color config).

(** Step 3, the loop over [img.getdata()]: a pixel within [tolerance] of the
    background colour on every band becomes transparent white. *)
Definition tolerance : Z := 0.

Definition matches_bg (bg_rgb : Z * Z * Z) (item : pixel) : bool :=
  let '(br, bg, bb) := bg_rgb in
  (Z.abs (band_r item - br) <=? tolerance)
  && (Z.abs (band_g item - bg) <=? tolerance)
  && (Z.abs (band_b item - bb) <=? tolerance).

Definition strip_background (img : image) (bg_rgb : Z * Z * Z) : image :=
  putdata img
    (map (fun item => if matches_bg bg_rgb item then (255, 255, 255, 0) else item)
         (getdata img)).

Definition apply_transparency (config : QRConfig) (img : image) : outcome image :=
  if transparent_bg config then
    bg_rgb <- ImageColor_getrgb L (bg_color config) ;;
    Return (strip_background img bg_rgb)
  else Return img.

(** Step 4. *)
Definition apply_logo (config : QRConfig) (img : image) : outcome image :=
  if has_logo config then add_logo img (logo_path config) else Return img.

(** What [generate] does once the content check has passed. *)
Definition generate_checked (config : QRConfig) : outcome image :=
  img <- render config ;;
  img <- apply_transparency config img ;;
  apply_logo config img.

(** [QREngine.generate]. *)
Definition generate (config : QRConfig) : outcome image :=
  if negb (truthy (strip (content config)))
  then Raise (ValueError (lit "Content cannot be empty"))
  else generate_checked config.

End Engine.

(* ------------------------------------------------------------------ *)
(** ** class Presets *)

(** [Presets.wifi]. *)
Definition wifi (ssid password security : str) (hidden : bool) : outcome str :=
  if negb (truthy ssid) then Raise (ValueError (lit "SSID is required"))
  else
    let sec := if truthy password then security else lit "nopass" in
    let hidden_str := if hidden then lit "true" else lit "false" in
    Return (lit "WIFI:T:" ++ sec ++ lit ";S:" ++ ssid ++ lit ";P:" ++ password
            ++ lit ";H:" ++ hidden_str ++ lit ";;").

(* ------------------------------------------------------------------ *)
(** ** class BatchWorker *)

(** The attributes [__init__] stores (the stop flag is part of the running
    state below). *)
Record BatchWorker : Type := mkBatchWorker {
  items : list str;
  config : QRConfig;
  output_dir : str;
  naming : str;
  fmt : str
}.

(** What a run lets the outside see: the three Qt signals, and each call of
    [save] with the path it writes. *)
Inductive event : Type :=
| progress (current total : nat) (item : str)
| error (msg : str)
| finished (success failed : nat)
| file_write (path : str) (img : image).

Definition is_progress (e : event) : bool :=
  match e with progress _ _ _ => true | _ => false end.

Definition is_file_write (e : event) : bool :=
  match e with file_write _ _ => true | _ => false end.

Definition is_finished (e : event) : bool :=
  match e with finished _ _ => true | _ => false end.

(** The state of [run]: the items [enumerate] has not yet handed out and the
    index of the next one, the two counters, the flag [_stop], what has been
    emitted so far, and whether [run] has returned. *)
Record worker_state : Type := mkState {
  pending : list str;
  next_idx : nat;
  success : nat;
  failed : nat;
  _stop : bool;
  emitted : list event;
  returned : bool
}.

(** The two threads: a step of the worker, or the caller's [stop()]. *)
Inductive action : Type := Work | Stop.

Section Batch.
Variable L : Lib.
Variable self : BatchWorker.

(** [QRConfig(content=item, ...)] with the other fields of [self.config]. *)
Definition item_config (item : str) : QRConfig :=
  mkQRConfig item
    (box_size (config self))
    (error_correction (config self))
    (qr_color (config self))
    (bg_color (config self))
    (transparent_bg (config self))
    (auto_optimize (config self))
    (quiet_zone (config self))
    (logo_path (config self)).

(** [re.sub(r"[^\w\-]", "_", text)]. *)
Definition safe (text : str) : str :=
  map (fun c => if re_word L c || (c =? 45)%N then c else 95%N) text.

(** The extension for the format, [".png" if self.fmt == "PNG" else ".jpg"]. *)
Definition ext_of (f : str) : str :=
  if str_eqb f (lit "PNG") then lit ".png" else lit ".jpg".

(** The body of the [try] for one item: the events it causes and how it
    ends. *)
Definition process_item (idx : nat) (item : str) : list event * outcome unit :=
  match generate L (item_config item) with
  | Raise e => ([], Raise e)
  | Return img =>
      let safe_content := safe (prefix 20 item) in
      match str_format L (naming self) idx safe_content with
      | Raise e => ([], Raise e)
      | Return name =>
          let ext := ext_of (fmt self) in
          let name := if negb (endswith (str_lower L name) ext) then name ++ ext else name in
          let path := path_join L (output_dir self) name in
          ([file_write path img],
           if str_eqb (fmt self) (lit "PNG") then save_png L img path
           else save_jpeg L img path 95)
      end
  end.

(** The events of one pass through the loop body, and whether the item
    counted as a success. *)
Definition iteration (idx : nat) (item : str) : list event * bool :=
  let total := List.length (items self) in
  let '(evs, r) := process_item idx item in
  match r with
  | Return _ => (evs ++ [progress idx total (prefix 40 item)], true)
  | Raise e =>
      (evs ++ [error (lit "Failed: " ++ prefix 30 item ++ lit "... - " ++ exn_str e);
               progress idx total (prefix 40 item)], false)
  end.

(** The state [run] starts in. *)
Definition start : worker_state :=
  mkState (items self) 1 0 0 false [] false.

(** [self.finished.emit(success, failed)], after which [run] returns. *)
Definition finish (s : worker_state) : worker_state :=
  mkState (pending s) (next_idx s) (success s) (failed s) (_stop s)
          (emitted s ++ [finished (success s) (failed s)]) true.

(** One step of [run]: at the head of the loop, leave it when the items are
    exhausted or [_stop] is set, and emit [finished]; otherwise handle the
    next item. *)
Definition worker_step (s : worker_state) : worker_state :=
  if returned s then s
  else
    match pending s with
    | [] => finish s
    | item :: rest =>
        if _stop s then finish s
        else
          let '(evs, ok) := iteration (next_idx s) item in
          mkState rest (S (next_idx s))
                  (if ok then S (success s) else success s)
                  (if ok then failed s else S (failed s))
                  (_stop s) (emitted s ++ evs) false
    end.

(** [BatchWorker.stop]. *)
Definition stop (s : worker_state) : worker_state :=
  mkState (pending s) (next_idx s) (success s) (failed s) true
          (emitted s) (returned s).

Definition perform (s : worker_state) (a : action) : worker_state :=
  match a with
  | Work => worker_step s
  | Stop => stop s
  end.

(** A schedule of the two threads, run from a state. *)
Definition exec (schedule : list action) (s : worker_state) : worker_state :=
  fold_left perform schedule s.

(** [run()] with nobody calling [stop()]: one step per item and the last
    one for [finished]. *)
Definition run : worker_state :=
  exec (repeat Work (S (List.length (items self)))) start.

(** The number of items already taken from the list. *)
Definition taken (s : worker_state) : nat :=
  List.length (items self) - List.length (pending s).

End Batch.

(* ------------------------------------------------------------------ *)
(** ** Vocabulary of the specification *)

(** Blank content: empty, or whitespace only. *)
Definition blank (s : str) : Prop := forall c, In c s -> isspace c = true.

(** One of the four labels of [ERROR_LEVELS]. *)
Definition recognized_label (s : str) : Prop := In s (map fst ERROR_LEVELS).

Definition with_error_correction (config : QRConfig) (label : str) : QRConfig :=
  mkQRConfig (content config) (box_size config) label (qr_color config)
             (bg_color config) (transparent_bg config) (auto_optimize config)
             (quiet_zone config) (logo_path config).

(** The red, green and blue bands of a pixel. *)
Definition rgb_of (p : pixel) : Z * Z * Z := (band_r p, band_g p, band_b p).

Definition transparent_white : pixel := (255, 255, 255, 0).
Definition opaque_white : pixel := (255, 255, 255, 255).

(** Every band of the pixel is a byte. *)
Definition byte_pixel (p : pixel) : Prop :=
  0 <= band_r p <= 255 /\ 0 <= band_g p <= 255
  /\ 0 <= band_b p <= 255 /\ 0 <= band_a p <= 255.

(** The data fill the size, with bytes. *)
Definition well_formed (im : image) : Prop :=
  0 <= size_w im /\ 0 <= size_h im
  /\ List.length (getdata im) = Z.to_nat (size_w im * size_h im)
  /\ Forall byte_pixel (getdata im).

(** An image as the encoder renders it: no transparency anywhere. *)
Definition opaque (im : image) : Prop :=
  Forall (fun p => band_a p = 255) (getdata im).

(** A logo with no partly transparent pixel. *)
Definition crisp (im : image) : Prop :=
  Forall (fun p => band_a p = 0 \/ band_a p = 255) (getdata im).

(** What Pillow promises of a thumbnail: it fits the requested size. *)
Definition resize_fits (L : Lib) : Prop :=
  forall im size im',
    thumbnail_resize L im size = Return im' ->
    size_w im' <= fst size /\ size_h im' <= snd size.

(** The number of events of a kind in a trace. *)
Definition count_events (f : event -> bool) (evs : list event) : nat :=
  List.length (filter f evs).

(** The [index]-th item onwards, with the events of their iterations. *)
Fixpoint loop_events (L : Lib) (self : BatchWorker) (idx : nat) (l : list str) : list event :=
  match l with
  | [] => []
  | item :: rest => fst (iteration L self idx item) ++ loop_events L self (S idx) rest
  end.

Fixpoint loop_successes (L : Lib) (self : BatchWorker) (idx : nat) (l : list str) : nat :=
  match l with
  | [] => 0%nat
  | item :: rest =>
      ((if snd (iteration L self idx item) then 1 else 0)
       + loop_successes L self (S idx) rest)%nat
  end.

(** The progress signals a list of items gives rise to, from index [idx]. *)
Fixpoint progress_events (total idx : nat) (l : list str) : list event :=
  match l with
  | [] => []
  | item :: rest => progress idx total (prefix 40 item) :: progress_events total (S idx) rest
  end.

(** What holds of the worker's state at every moment of every schedule:
    the items split into those handled and those pending, and the
    counters and the emitted events are those of the handled ones, closed by
    [finished] once [run] has returned. *)
Definition consistent (L : Lib) (self : BatchWorker) (s : worker_state) : Prop :=
  exists done : list str,
    items self = done ++ pending s
    /\ next_idx s = S (List.length done)
    /\ success s = loop_successes L self 1 done
    /\ (success s + failed s = List.length done)%nat
    /\ emitted s = loop_events L self 1 done
                   ++ (if returned s then [finished (success s) (failed s)] else []).

(* ------------------------------------------------------------------ *)
(** ** A concrete library, for evaluating the program *)

Module Demo.

Definition black : pixel := (0, 0, 0, 255).
Definition white : pixel := (255, 255, 255, 255).

(** A 3x3 rendering: a black cross on white. *)
Definition cross : image :=
  mkImage 3 3 [white; black; white; black; black; black; white; black; white].

(** A 29x29 all-black image (the size of a version 1 symbol, 21 modules, at
    box size 1 with the quiet zone of 4). *)
Definition dark : image := Image_new 29 29 black.

(** A 1x1 logo, half transparent. *)
Definition faint_logo : image := mkImage 1 1 [(0, 0, 0, 128)].

(** A 2x2 opaque red logo. *)
Definition red_logo : image := Image_new 2 2 (255, 0, 0, 255).

(** A 40x20 opaque red logo. *)
Definition wide_logo : image := Image_new 40 20 (255, 0, 0, 255).

(** Nearest-neighbour resize to [(nw, nh)]. *)
Definition nearest (im : image) (nw nh : Z) : image :=
  mkImage nw nh
    (map (fun i => getpixel im ((Z.of_nat i mod nw) * size_w im / nw)
                               ((Z.of_nat i / nw) * size_h im / nh))
         (seq 0 (Z.to_nat (nw * nh)))).

(** An aspect-preserving resize into [size]; division by zero raises. *)
Definition resize (im : image) (size : Z * Z) : outcome image :=
  let '(x, y) := size in
  if (x <=? 0) || (y <=? 0) || (size_w im <=? 0) || (size_h im <=? 0)
  then Raise (OtherException (lit "ZeroDivisionError") (lit "division by zero"))
  else if size_h im * x <=? size_w im * y
       then Return (nearest im x (Z.max 1 (size_h im * x / size_w im)))
       else Return (nearest im (Z.max 1 (size_w im * y / size_h im)) y).

(** Files: [logo.png], [faint.png] and [wide.png] are images, [notes.txt]
    exists and is no image. A name template is taken literally, with the
    index (below ten) appended as a digit. *)
Definition lib : Lib :=
  mkLib
    (fun p => str_eqb p (lit "logo.png") || str_eqb p (lit "faint.png")
              || str_eqb p (lit "wide.png") || str_eqb p (lit "notes.txt"))
    (fun _ _ _ _ _ _ _ => Return cross)
    (fun c => if str_eqb c (lit "#ffffff") then Return (255, 255, 255)
              else if str_eqb c (lit "#000000") then Return (0, 0, 0)
              else Raise (ValueError (lit "unknown color specifier")))
    (fun p => if str_eqb p (lit "logo.png") then Return red_logo
              else if str_eqb p (lit "faint.png") then Return faint_logo
              else if str_eqb p (lit "wide.png") then Return wide_logo
              else Raise (OtherException (lit "UnidentifiedImageError")
                                         (lit "cannot identify image file")))
    resize
    (fun c => ((48 <=? c) && (c <=? 57) || (65 <=? c) && (c <=? 90)
               || (97 <=? c) && (c <=? 122) || (c =? 95))%N)
    (fun template idx _ => Return (template ++ [(48 + N.of_nat idx)%N]))
    (fun s => s)
    (fun d n => d ++ lit "/" ++ n)
    (fun _ _ => Return tt)
    (fun _ _ _ => Return tt).

Definition plain : QRConfig :=
  mkQRConfig (lit "hello") 10 (lit "M - 15% (Standard)") (lit "#000000")
             (lit "#ffffff") false true true [].

Definition with_logo (config : QRConfig) (p : str) : QRConfig :=
  mkQRConfig (content config) (box_size config) (error_correction config)
             (qr_color config) (bg_color config) (transparent_bg config)
             (auto_optimize config) (quiet_zone config) p.

Definition with_transparency (config : QRConfig) : QRConfig :=
  mkQRConfig (content config) (box_size config) (error_correction config)
             (qr_color config) (bg_color config) true
             (auto_optimize config) (quiet_zone config) (logo_path config).

(** A request for the highest level, with a logo. *)
Definition highest_with_logo : QRConfig :=
  with_logo (with_error_correction plain (lit "H - 30% (Maximum)")) (lit "logo.png").

Definition worker (l : list str) : BatchWorker :=
  mkBatchWorker l plain (lit "out") (lit "qr_code_") (lit "PNG").

(** Five items; the caller stops the batch after the second. *)
Definition five : BatchWorker :=
  worker [lit "a"; lit "b"; lit "c"; lit "d"; lit "e"].

Definition stopped_after_two : worker_state :=
  exec lib five [Work; Work; Stop; Work; Work] (start five).

End Demo.

(* ------------------------------------------------------------------ *)
(** ** More of Python's [str], and [urllib.parse.quote] *)

Module PyText.

(** [s.startswith(t)]. *)
Definition startswith (s t : str) : bool :=
  str_eqb (firstn (List.length t) s) t.

(** [sep.join(parts)]. *)
Fixpoint join (sep : str) (parts : list str) : str :=
  match parts with
  | [] => []
  | [p] => p
  | p :: rest => p ++ sep ++ join sep rest
  end.

(** [s.count(c)] for a single character. *)
Definition count_char (c : N) (s : str) : nat := count_occ N.eq_dec s c.




End PyText.
Import PyText.

Module Urllib.

(** [_ALWAYS_SAFE]: the unreserved characters, never quoted. *)
Definition always_safe (b : N) : bool :=
  (((65 <=? b) && (b <=? 90)) || ((97 <=? b) && (b <=? 122))
   || ((48 <=? b) && (b <=? 57))
   || (b =? 95) || (b =? 46) || (b =? 45) || (b =? 126))%N.

(** A hexadecimal digit, upper case as ['%{:02X}'] prints it. *)
Definition hex_digit (n : N) : N := (if n <? 10 then 48 + n else 55 + n)%N.

Definition percent (b : N) : str := [37; hex_digit (b / 16); hex_digit (b mod 16)]%N.

(** [chr(c).encode("utf-8", "strict")]: a surrogate cannot be encoded (a
    Python [str] holds nothing above U+10FFFF; the message is shortened). *)
Definition utf8 (c : N) : outcome (list N) :=
  (if c <? 128 then Return [c]
   else if c <? 2048 then Return [192 + c / 64; 128 + c mod 64]
   else if (55296 <=? c) && (c <=? 57343)
        then Raise (OtherException (lit "UnicodeEncodeError") (lit "surrogates not allowed"))
   else if c <? 65536
        then Return [224 + c / 4096; 128 + (c / 64) mod 64; 128 + c mod 64]
   else if c <? 1114112
        then Return [240 + c / 262144; 128 + (c / 4096) mod 64;
                     128 + (c / 64) mod 64; 128 + c mod 64]
   else Raise (OtherException (lit "UnicodeEncodeError") (lit "not a code point")))%N.

Fixpoint encode (s : str) : outcome (list N) :=
  match s with
  | [] => Return []
  | c :: s' => b <- utf8 c ;; bs <- encode s' ;; Return (b ++ bs)
  end.

(** [quote_from_bytes(bs, safe="/")]. *)
Definition quote_from_bytes (bs : list N) : str :=
  flat_map (fun b => if always_safe b || (b =? 47)%N then [b] else percent b) bs.

(** [urllib.parse.quote(s)], with its defaults. *)
Definition quote (s : str) : outcome str :=
  match s with
  | [] => Return []
  | _ :: _ => bs <- encode s ;; Return (quote_from_bytes bs)
  end.

End Urllib.
Import Urllib.

(* ------------------------------------------------------------------ *)
(** ** class Presets, the other generators *)

(** [Presets.email]. *)
Definition email (address subject body : str) : outcome str :=
  if negb (truthy address) then Raise (ValueError (lit "Email address is required"))
  else
    params <- (if truthy subject
               then q <- quote subject ;; Return [lit "subject=" ++ q]
               else Return []) ;;
    params <- (if truthy body
               then q <- quote body ;; Return (params ++ [lit "body=" ++ q])
               else Return params) ;;
    let query := match params with
                 | [] => lit ""
                 | _ :: _ => lit "?" ++ join (lit "&") params
                 end in
    Return (lit "mailto:" ++ address ++ query).

Section Numbers.
(** The class [\d] of [re]. *)
Variable re_digit : N -> bool.

(** [re.sub(r"[^\d+]", "", number)]. *)
Definition clean_number (number : str) : str :=
  filter (fun c => re_digit c || (c =? 43)%N) number.

(** [Presets.phone]. *)
Definition phone (number : str) : outcome str :=
  if negb (truthy number) then Raise (ValueError (lit "Phone number is required"))
  else
    let clean := clean_number number in
    Return (lit "tel:" ++ clean).

(** [Presets.sms]. *)
Definition sms (number message : str) : outcome str :=
  if negb (truthy number) then Raise (ValueError (lit "Phone number is required"))
  else
    let clean := clean_number number in
    if truthy message then
      q <- quote message ;;
      Return (lit "sms:" ++ clean ++ lit "?body=" ++ q)
    else Return (lit "sms:" ++ clean).

End Numbers.

(** [Presets.website]. *)
Definition website (url : str) : outcome str :=
  if negb (truthy url) then Raise (ValueError (lit "URL is required"))
  else
    let url := if negb (startswith url (lit "http://") || startswith url (lit "https://"))
               then lit "https://" ++ url else url in
    Return url.

(** [Presets.vcard]. *)
Definition vcard (name phone email org title : str) : outcome str :=
  if negb (truthy name) then Raise (ValueError (lit "Name is required"))
  else
    let lines := [lit "BEGIN:VCARD"; lit "VERSION:3.0"; lit "FN:" ++ name] in
    let lines := if truthy phone then lines ++ [lit "TEL:" ++ phone] else lines in
    let lines := if truthy email then lines ++ [lit "EMAIL:" ++ email] else lines in
    let lines := if truthy org then lines ++ [lit "ORG:" ++ org] else lines in
    let lines := if truthy title then lines ++ [lit "TITLE:" ++ title] else lines in
    let lines := lines ++ [lit "END:VCARD"] in
    Return (join [10%N] lines).

(* ------------------------------------------------------------------ *)
(** ** class NeoQRPro: what its handlers compute *)



(** The content [_do_generate_preview] hands to [generate]: the stripped text
    of the editor, or nothing when that is empty. *)
Definition preview_content (text : str) : option str :=
  let content := strip text in
  if negb (truthy content) then None else Some content.

(** [QRConfig] with the fields [_do_generate_preview] syncs from the
    widgets. *)
Definition preview_config (config : QRConfig) (content : str)
           (auto_opt quiet transparent : bool) : QRConfig :=
  mkQRConfig content (box_size config) (error_correction config) (qr_color config)
             (bg_color config) transparent auto_opt quiet (logo_path config).

(** The colours and the transparency switch of the window: the fields the
    handlers below read and write. [transparent_check] is the state of the
    check box, [bg_color_btn_enabled] and the two texts are those of the
    colour buttons. *)
Record window : Type := mkWindow {
  win_config : QRConfig;
  _last_bg_color : str;
  transparent_check : bool;
  bg_color_btn_enabled : bool;
  bg_color_btn_text : str;
  qr_color_btn_text : str
}.

(** [QRConfig()], the defaults of the dataclass. *)
Definition default_config : QRConfig :=
  mkQRConfig (lit "") 10 (lit "M - 15% (Standard)") (lit "#000000") (lit "#ffffff")
             false true true (lit "").

Definition set_qr_color (config : QRConfig) (c : str) : QRConfig :=
  mkQRConfig (content config) (box_size config) (error_correction config) c
             (bg_color config) (transparent_bg config) (auto_optimize config)
             (quiet_zone config) (logo_path config).

Definition set_bg_color (config : QRConfig) (c : str) : QRConfig :=
  mkQRConfig (content config) (box_size config) (error_correction config)
             (qr_color config) c (transparent_bg config) (auto_optimize config)
             (quiet_zone config) (logo_path config).

Definition set_transparent_bg (config : QRConfig) (b : bool) : QRConfig :=
  mkQRConfig (content config) (box_size config) (error_correction config)
             (qr_color config) (bg_color config) b (auto_optimize config)
             (quiet_zone config) (logo_path config).

(** The prefix of the button texts, a black square (U+25A0) and a space. *)
Definition square : str := [9632; 32]%N.

(** The window as [__init__] and [_build_ui] leave it. *)
Definition initial_window : window :=
  mkWindow default_config (bg_color default_config) false true
           (square ++ lit "White") (square ++ lit "Black").

(** [_on_transparent_changed]; the preview it schedules is not part of this
    state. *)
Definition on_transparent_changed (s : window) : window :=
  let is_checked := transparent_check s in
  let config := set_transparent_bg (win_config s) is_checked in
  if is_checked then
    mkWindow config (bg_color config) (transparent_check s) false
             (square ++ lit "(transparent)") (qr_color_btn_text s)
  else
    let config := if truthy (_last_bg_color s)
                  then set_bg_color config (_last_bg_color s) else config in
    mkWindow config (_last_bg_color s) (transparent_check s) true
             (square ++ bg_color config) (qr_color_btn_text s).

(** [transparent_check.setChecked(b)]: Qt emits [stateChanged], and with it
    runs the handler connected to it, only when the state changes. *)
Definition setChecked (b : bool) (s : window) : window :=
  if Bool.eqb (transparent_check s) b then s
  else on_transparent_changed
         (mkWindow (win_config s) (_last_bg_color s) b (bg_color_btn_enabled s)
                   (bg_color_btn_text s) (qr_color_btn_text s)).

(** [_reset_colors]. *)
Definition reset_colors (s : window) : window :=
  let config := set_bg_color (set_qr_color (win_config s) (lit "#000000")) (lit "#ffffff") in
  let s := mkWindow config (bg_color config) (transparent_check s)
                    (bg_color_btn_enabled s) (bg_color_btn_text s) (qr_color_btn_text s) in
  let s := setChecked false s in
  mkWindow (win_config s) (_last_bg_color s) (transparent_check s) true
           (square ++ lit "#ffffff") (square ++ lit "#000000").

(** [_pick_qr_color]; [color] is the name of the colour the dialog returned,
    [None] when it is not valid (the dialog was cancelled). *)
Definition pick_qr_color (color : option str) (s : window) : window :=
  match color with
  | None => s
  | Some name =>
      mkWindow (set_qr_color (win_config s) name) (_last_bg_color s) (transparent_check s)
               (bg_color_btn_enabled s) (bg_color_btn_text s) (square ++ name)
  end.

(** [_pick_bg_color]. *)
Definition pick_bg_color (color : option str) (s : window) : window :=
  match color with
  | None => s
  | Some name =>
      setChecked false
        (mkWindow (set_bg_color (win_config s) name) (_last_bg_color s)
                  (transparent_check s) (bg_color_btn_enabled s) (square ++ name)
                  (qr_color_btn_text s))
  end.

(** [_do_generate_preview], as far as it writes the configuration. *)
Definition do_generate_preview (text : str) (auto_opt quiet : bool) (s : window) : window :=
  match preview_content text with
  | None => s
  | Some content =>
      mkWindow (preview_config (win_config s) content auto_opt quiet (transparent_check s))
               (_last_bg_color s) (transparent_check s) (bg_color_btn_enabled s)
               (bg_color_btn_text s) (qr_color_btn_text s)
  end.

(** What the user does to these widgets, and the timer of the preview. A
    click on the check box changes its state and emits [stateChanged]; a
    click on a disabled button does nothing. *)
Inductive gesture : Type :=
| ToggleTransparent
| ClickReset
| ClickBackground (color : option str)
| ClickForeground (color : option str)
| PreviewDue (text : str) (auto_opt quiet : bool).

Definition handle (s : window) (g : gesture) : window :=
  match g with
  | ToggleTransparent => setChecked (negb (transparent_check s)) s
  | ClickReset => reset_colors s
  | ClickBackground color =>
      if bg_color_btn_enabled s then pick_bg_color color s else s
  | ClickForeground color => pick_qr_color color s
  | PreviewDue text auto_opt quiet => do_generate_preview text auto_opt quiet s
  end.

(** The window after a sequence of gestures. *)
Definition window_after (gestures : list gesture) : window :=
  fold_left handle gestures initial_window.

(** A second library, which differs from [Demo.lib] in the encoder only: it
    renders the 29x29 image whose pixels are black and white in turn, the
    first one black. *)
Definition chequered : image :=
  mkImage 29 29
    (map (fun i => if Nat.even i then Demo.black else Demo.white) (seq 0 841)).

Definition chequered_lib : Lib :=
  mkLib (os_path_exists Demo.lib)
        (fun _ _ _ _ _ _ _ => Return chequered)
        (ImageColor_getrgb Demo.lib)
        (Image_open Demo.lib)
        (thumbnail_resize Demo.lib)
        (re_word Demo.lib)
        (str_format Demo.lib)
        (str_lower Demo.lib)
        (path_join Demo.lib)
        (save_png Demo.lib)
        (save_jpeg Demo.lib).

(** Transparent background, and the logo logo.png. *)
Definition transparent_with_logo : QRConfig :=
  Demo.with_transparency (Demo.with_logo Demo.plain (lit "logo.png")).

(* ------------------------------------------------------------------ *)
(** ** Further vocabulary *)

Definition is_error (e : event) : bool :=
  match e with error _ => true | _ => false end.

(** No white space at either end. *)
Definition trimmed (s : str) : Prop := lstrip s = s /\ lstrip (rev s) = rev s.

(** The characters [quote] can produce. *)
Definition url_char (c : N) : bool := always_safe c || (c =? 47)%N || (c =? 37)%N.

(** ASCII digits are digits, and the punctuation of a written phone number
    is not: what every [\d] satisfies. *)
Definition ascii_digits (re_digit : N -> bool) : Prop :=
  forall c, (c < 128)%N -> re_digit c = ((48 <=? c) && (c <=? 57))%N.

(** What every sequence of gestures preserves: the configuration agrees
    with the check box, the background button is enabled exactly when the
    box is not checked, and while it is checked the remembered colour is the
    configured one. *)
Definition colours_in_step (s : window) : Prop :=
  transparent_bg (win_config s) = transparent_check s
  /\ bg_color_btn_enabled s = negb (transparent_check s)
  /\ (transparent_check s = true -> _last_bg_color s = bg_color (win_config s)).

(** The line an optional field of a vCard contributes, with the line
    break before it; nothing when the field is empty. *)
Definition optional_line (tag value : str) : str :=
  if truthy value then [10%N] ++ tag ++ value else [].

(** The square of side [side] centred in a [w] x [h] image, as [pad_pos]
    centres. *)
Definition in_centre (w h side x y : Z) : bool :=
  ((w - side) / 2 <=? x) && (x <? (w - side) / 2 + side)
  && ((h - side) / 2 <=? y) && (y <? (h - side) / 2 + side).

(* ================================================================== *)
(** * Properties *)

Ltac split_all := repeat match goal with |- _ /\ _ => split end.

(** ** Strings *)

Lemma str_eqb_eq (a b : str) : str_eqb a b = true <-> a = b.
Proof.
  unfold str_eqb. destruct (list_eq_dec N.eq_dec a b); split; congruence.
Qed.

Lemma lstrip_nil (s : str) : lstrip s = [] <-> blank s.
Proof.
  unfold blank. induction s as [|c s IH]; simpl.
  - split; [intros _ c []|reflexivity].
  - destruct (isspace c) eqn:Hc.
    + rewrite IH. split.
      * intros H x [->|Hx]; auto.
      * intros H x Hx. apply H. now right.
    + split; [discriminate|].
      intros H. specialize (H c (or_introl eq_refl)). congruence.
Qed.

(** [s.strip()] is empty exactly when [s] is blank. *)
Lemma strip_nil (s : str) : strip s = [] <-> blank s.
Proof.
  unfold strip, rstrip. split.
  - intros H.
    destruct (lstrip s) as [|c r] eqn:Hl.
    + now apply lstrip_nil.
    + exfalso.
      (* the first character left by [lstrip] is no space, so the
         right strip cannot eat it *)
      assert (Hc : isspace c = false).
      { clear H. induction s as [|a s IH]; simpl in Hl; [discriminate|].
        destruct (isspace a) eqn:Ha; [auto|]. now inversion Hl; subst. }
      assert (Hne : forall t u, isspace c = false -> lstrip (t ++ [c] ++ u) <> []).
      { clear. intros t. induction t as [|a t IH]; intros u Hc; simpl.
        - now rewrite Hc.
        - destruct (isspace a); [now apply IH | discriminate]. }
      apply (f_equal (@rev N)) in H. rewrite rev_involutive in H. simpl in H.
      apply (Hne (rev r) [] Hc). simpl. exact H.
  - intros H. apply lstrip_nil in H. rewrite H. reflexivity.
Qed.

(** ** generate: the content check *)

Lemma generate_blank (L : Lib) (config : QRConfig) :
  blank (content config) ->
  generate L config = Raise (ValueError (lit "Content cannot be empty")).
Proof.
  intros H. unfold generate. apply strip_nil in H. rewrite H. reflexivity.
Qed.

Lemma generate_not_blank (L : Lib) (config : QRConfig) :
  ~ blank (content config) -> generate L config = generate_checked L config.
Proof.
  intros H. unfold generate.
  destruct (strip (content config)) eqn:Hs; [|reflexivity].
  exfalso. apply H. now apply strip_nil.
Qed.

(** ** Presets.wifi (C9) *)

(** C9. For every SSID, password, security string and hidden flag:
    [wifi] raises when the SSID is empty; otherwise it returns
    "WIFI:T:<sec>;S:<ssid>;P:<pw>;H:<hidden>;;" where <sec> is "nopass"
    when the password is empty and the requested security otherwise; and
    wifi("HomeNet", "", "WPA", false) is
    "WIFI:T:nopass;S:HomeNet;P:;H:false;;". *)
Theorem wifi_format (ssid password security : str) (hidden : bool) :
  (ssid = [] ->
     wifi ssid password security hidden = Raise (ValueError (lit "SSID is required")))
  /\ (ssid <> [] ->
        wifi ssid password security hidden =
        Return (lit "WIFI:T:"
                ++ (match password with [] => lit "nopass" | _ => security end)
                ++ lit ";S:" ++ ssid
                ++ lit ";P:" ++ password
                ++ lit ";H:" ++ (if hidden then lit "true" else lit "false")
                ++ lit ";;"))
  /\ wifi (lit "HomeNet") (lit "") (lit "WPA") false
     = Return (lit "WIFI:T:nopass;S:HomeNet;P:;H:false;;").
Proof.
  split; [|split].
  - intros ->. reflexivity.
  - intros H. unfold wifi.
    destruct ssid as [|c ssid]; [congruence|]. simpl truthy. simpl negb.
    destruct password; reflexivity.
  - reflexivity.
Qed.

(** ** generate: the error-correction level (C1, C10) *)

Lemma dict_get_unknown {V} (d : list (str * V)) (key : str) (default : V) :
  ~ In key (map fst d) -> dict_get d key default = default.
Proof.
  induction d as [|[k v] d IH]; simpl; intros H; [reflexivity|].
  destruct (str_eqb k key) eqn:E.
  - apply str_eqb_eq in E. exfalso. apply H. now left.
  - apply IH. intros Hin. apply H. now right.
Qed.

Lemma effective_ecc_label (L : Lib) (config : QRConfig) (label : str) :
  dict_get ERROR_LEVELS (error_correction config) ERROR_CORRECT_M
  = dict_get ERROR_LEVELS label ERROR_CORRECT_M ->
  effective_ecc L config = effective_ecc L (with_error_correction config label).
Proof.
  intros H. unfold effective_ecc, has_logo, with_error_correction.
  cbn [error_correction logo_path]. now rewrite H.
Qed.

Lemma generate_label (L : Lib) (config : QRConfig) (label : str) :
  dict_get ERROR_LEVELS (error_correction config) ERROR_CORRECT_M
  = dict_get ERROR_LEVELS label ERROR_CORRECT_M ->
  generate L config = generate L (with_error_correction config label).
Proof.
  intros H. unfold generate, generate_checked, render.
  rewrite (effective_ecc_label L config label H).
  reflexivity.
Qed.

(** C10. For every configuration whose [error_correction] string is none
    of the four labels of [ERROR_LEVELS], the lookup yields the level M, and
    [generate] behaves exactly as it does for the same configuration with
    the label "M - 15% (Standard)": the field causes no failure. *)
Theorem unknown_level_falls_back_to_M (L : Lib) (config : QRConfig) :
  ~ recognized_label (error_correction config) ->
  dict_get ERROR_LEVELS (error_correction config) ERROR_CORRECT_M = ERROR_CORRECT_M
  /\ effective_ecc L config
     = effective_ecc L (with_error_correction config (lit "M - 15% (Standard)"))
  /\ generate L config
     = generate L (with_error_correction config (lit "M - 15% (Standard)")).
Proof.
  intros H.
  assert (E : dict_get ERROR_LEVELS (error_correction config) ERROR_CORRECT_M
              = dict_get ERROR_LEVELS (lit "M - 15% (Standard)") ERROR_CORRECT_M).
  { rewrite dict_get_unknown by exact H. reflexivity. }
  split; [|split].
  - now apply dict_get_unknown.
  - now apply effective_ecc_label.
  - now apply generate_label.
Qed.

(** The configuration [Demo.plain] with the label "best": no failure, the
    level is M. *)
Lemma unknown_level_falls_back_to_M_witness :
  dict_get ERROR_LEVELS (lit "best") ERROR_CORRECT_M = ERROR_CORRECT_M
  /\ effective_ecc Demo.lib (with_error_correction Demo.plain (lit "best"))
     = effective_ecc Demo.lib
         (with_error_correction (with_error_correction Demo.plain (lit "best"))
                                (lit "M - 15% (Standard)"))
  /\ generate Demo.lib (with_error_correction Demo.plain (lit "best"))
     = generate Demo.lib
         (with_error_correction (with_error_correction Demo.plain (lit "best"))
                                (lit "M - 15% (Standard)")).
Proof.
  apply (unknown_level_falls_back_to_M Demo.lib
           (with_error_correction Demo.plain (lit "best"))).
  unfold recognized_label. simpl.
  intros [H|[H|[H|[H|[]]]]]; discriminate H.
Defined.

(** With a logo the level handed to the encoder is never numerically below
    [ERROR_CORRECT_Q]: this is all the comparison [ecc < ERROR_CORRECT_Q]
    ensures. *)
Lemma effective_ecc_with_logo_ge_Q (L : Lib) (config : QRConfig) :
  has_logo L config = true -> ERROR_CORRECT_Q <= effective_ecc L config.
Proof.
  intros H. unfold effective_ecc. rewrite H.
  destruct (Z.ltb_spec (dict_get ERROR_LEVELS (error_correction config) ERROR_CORRECT_M)
                       ERROR_CORRECT_Q); lia.
Qed.

Lemma dict_get_levels (key : str) :
  dict_get ERROR_LEVELS key ERROR_CORRECT_M = ERROR_CORRECT_L
  \/ dict_get ERROR_LEVELS key ERROR_CORRECT_M = ERROR_CORRECT_M
  \/ dict_get ERROR_LEVELS key ERROR_CORRECT_M = ERROR_CORRECT_Q
  \/ dict_get ERROR_LEVELS key ERROR_CORRECT_M = ERROR_CORRECT_H.
Proof.
  unfold dict_get, ERROR_LEVELS.
  repeat match goal with
         | |- context [if ?b then _ else _] => destruct b; auto
         end.
Qed.

(** With a logo every request ends at level Q (25%): Q is the largest of
    the four constants, so the comparison replaces each of the others. *)
Lemma effective_ecc_with_logo_is_Q (L : Lib) (config : QRConfig) :
  has_logo L config = true -> effective_ecc L config = ERROR_CORRECT_Q.
Proof.
  intros H. unfold effective_ecc. rewrite H.
  destruct (dict_get_levels (error_correction config)) as [E|[E|[E|E]]];
    rewrite E; reflexivity.
Qed.

(** C1, at the request for H with a logo. The constants are L = 1, M = 0,
    Q = 3, H = 2, and [generate] compares them as numbers: H (2) is below
    Q (3), so a request for H (30%) with an existing logo is encoded at
    Q (25%), a lower tier than the one requested. *)
Theorem highest_level_with_logo_is_lowered (L : Lib) (config : QRConfig) :
  has_logo L config = true ->
  error_correction config = lit "H - 30% (Maximum)" ->
  dict_get ERROR_LEVELS (error_correction config) ERROR_CORRECT_M = ERROR_CORRECT_H
  /\ effective_ecc L config = ERROR_CORRECT_Q
  /\ tier_percent (effective_ecc L config) = 25
  /\ tier_percent ERROR_CORRECT_H = 30.
Proof.
  intros Hlogo Hlabel.
  rewrite (effective_ecc_with_logo_is_Q L config Hlogo), Hlabel.
  repeat split.
Qed.

(** [Demo.highest_with_logo]: the label "H - 30% (Maximum)" and the existing
    file logo.png. *)
Lemma highest_level_with_logo_is_lowered_witness :
  dict_get ERROR_LEVELS (error_correction Demo.highest_with_logo) ERROR_CORRECT_M
  = ERROR_CORRECT_H
  /\ effective_ecc Demo.lib Demo.highest_with_logo = ERROR_CORRECT_Q
  /\ tier_percent (effective_ecc Demo.lib Demo.highest_with_logo) = 25
  /\ tier_percent ERROR_CORRECT_H = 30.
Proof.
  apply (highest_level_with_logo_is_lowered Demo.lib Demo.highest_with_logo);
    reflexivity.
Defined.

(** ** add_logo: the handler *)

Lemma add_logo_cases (L : Lib) (qr_img : image) (p : str) :
  (exists e, add_logo_try L qr_img p = Raise e /\ add_logo L qr_img p = Return qr_img)
  \/ (exists img, add_logo_try L qr_img p = Return img /\ add_logo L qr_img p = Return img).
Proof.
  unfold add_logo, try_except.
  destruct (add_logo_try L qr_img p) as [img|e]; [right|left]; eauto.
Qed.

Lemma add_logo_returns (L : Lib) (qr_img : image) (p : str) :
  exists img, add_logo L qr_img p = Return img.
Proof.
  destruct (add_logo_cases L qr_img p) as [(e & _ & H)|(img & _ & H)]; eauto.
Qed.

Lemma apply_logo_returns (L : Lib) (config : QRConfig) (img : image) :
  exists out, apply_logo L config img = Return out.
Proof.
  unfold apply_logo. destruct (has_logo L config); [apply add_logo_returns|eauto].
Qed.

(** ** generate: the content check (C3) *)

(** C3. For every configuration and every behaviour of the libraries:
    when the content is blank (empty or whitespace only) [generate] raises
    the [ValueError] "Content cannot be empty", whatever the other fields
    are; when it is not blank the check passes: [generate] is the rest of
    the pipeline, and it returns an image as soon as the rendering and the
    transparency step do. *)
Theorem generate_content_check (L : Lib) (config : QRConfig) :
  (blank (content config) ->
     generate L config = Raise (ValueError (lit "Content cannot be empty")))
  /\ (~ blank (content config) ->
        generate L config = generate_checked L config
        /\ (forall img img',
              render L config = Return img ->
              apply_transparency L config img = Return img' ->
              exists out, generate L config = Return out)).
Proof.
  split; [apply generate_blank|].
  intros H. rewrite (generate_not_blank L config H). split; [reflexivity|].
  intros img img' Hr Ht. unfold generate_checked. rewrite Hr. cbn [bind].
  rewrite Ht. cbn [bind]. apply apply_logo_returns.
Qed.

(** ** add_logo never raises (C6) *)

(** C6. [add_logo] returns an image on every input; whenever anything in
    its [try] block raises, and in particular when the logo cannot be opened
    or decoded, the image returned is the QR image it was given. Hence a
    logo never makes [generate] fail: once the content check, the rendering
    and the transparency step have passed, [generate] returns, and with an
    unreadable logo it returns the image those steps produced. *)
Theorem add_logo_never_raises (L : Lib) (qr_img : image) (p : str) :
  (exists img, add_logo L qr_img p = Return img)
  /\ (forall e, Image_open L p = Raise e -> add_logo L qr_img p = Return qr_img)
  /\ (forall e, add_logo_try L qr_img p = Raise e -> add_logo L qr_img p = Return qr_img)
  /\ (forall config img,
        logo_path config = p ->
        ~ blank (content config) ->
        render L config = Return img ->
        apply_transparency L config img = Return qr_img ->
        (exists out, generate L config = Return out)
        /\ (forall e, Image_open L p = Raise e -> generate L config = Return qr_img)).
Proof.
  assert (Hopen : forall e, Image_open L p = Raise e ->
                            add_logo L qr_img p = Return qr_img).
  { intros e He. unfold add_logo, add_logo_try. rewrite He. reflexivity. }
  split; [apply add_logo_returns|].
  split; [exact Hopen|].
  split.
  - intros e He. unfold add_logo. rewrite He. reflexivity.
  - intros config img Hp Hc Hr Ht.
    rewrite (generate_not_blank L config Hc).
    unfold generate_checked. rewrite Hr. simpl. rewrite Ht. simpl.
    split; [apply apply_logo_returns|].
    intros e He. unfold apply_logo. rewrite Hp.
    destruct (has_logo L config); [now apply (Hopen e)|reflexivity].
Qed.

(** ** generate: the transparent background (C2) *)

Lemma matches_bg_iff (bg_rgb : Z * Z * Z) (item : pixel) :
  matches_bg bg_rgb item = true <-> rgb_of item = bg_rgb.
Proof.
  destruct bg_rgb as [[br bg] bb]. destruct item as [[[r g] b] a].
  unfold matches_bg, rgb_of, tolerance. simpl.
  rewrite !andb_true_iff, !Z.leb_le. split.
  - intros [[H1 H2] H3]. f_equal; [f_equal|]; lia.
  - intros H. inversion H; subst. lia.
Qed.

Lemma strip_background_nth (img : image) (bg_rgb : Z * Z * Z) (i : nat) :
  nth_error (getdata (strip_background img bg_rgb)) i
  = option_map (fun item => if matches_bg bg_rgb item then transparent_white else item)
               (nth_error (getdata img) i).
Proof.
  unfold strip_background, putdata. cbn [getdata].
  apply nth_error_map.
Qed.

(** ** BatchWorker: the loop (C4, C5) *)

Section BatchProperties.
Variable L : Lib.
Variable self : BatchWorker.

Lemma exec_app (a b : list action) (s : worker_state) :
  exec L self (a ++ b) s = exec L self b (exec L self a s).
Proof. unfold exec. apply fold_left_app. Qed.

Lemma exec_cons (a : action) (sched : list action) (s : worker_state) :
  exec L self (a :: sched) s = exec L self sched (perform L self s a).
Proof. reflexivity. Qed.

Lemma loop_events_app (idx : nat) (a b : list str) :
  loop_events L self idx (a ++ b)
  = loop_events L self idx a ++ loop_events L self (idx + List.length a) b.
Proof.
  revert idx. induction a as [|x a IH]; intros idx; simpl.
  - now rewrite Nat.add_0_r.
  - rewrite IH, <- app_assoc. do 3 f_equal. lia.
Qed.

Lemma loop_successes_app (idx : nat) (a b : list str) :
  loop_successes L self idx (a ++ b)
  = (loop_successes L self idx a + loop_successes L self (idx + List.length a) b)%nat.
Proof.
  revert idx. induction a as [|x a IH]; intros idx; simpl.
  - now rewrite Nat.add_0_r.
  - rewrite IH. replace (S idx + List.length a)%nat with (idx + S (List.length a))%nat by lia.
    lia.
Qed.

(** The events of one iteration: at most one call of [save], at most one
    [error], then the [progress] signal; never [finished]. *)
Lemma iteration_shape (idx : nat) (item : str) :
  exists evs,
    fst (iteration L self idx item)
    = evs ++ [progress idx (List.length (items self)) (prefix 40 item)]
    /\ filter is_progress evs = []
    /\ filter is_finished evs = []
    /\ (List.length (filter is_file_write evs) <= 1)%nat.
Proof.
  assert (two : forall (l : list event) a b, l ++ [a; b] = (l ++ [a]) ++ [b]).
  { intros. now rewrite <- app_assoc. }
  unfold iteration, process_item.
  destruct (generate L (item_config self item)) as [img|e].
  - destruct (str_format L (naming self) idx (safe L (prefix 20 item))) as [name|e].
    + match goal with
      | |- context [if ?c then save_png _ _ ?p else _] =>
          destruct (if c then save_png L img p else save_jpeg L img p 95) as [u|e]
      end; cbv beta iota zeta delta [fst]; [|rewrite two];
        (eexists; split; [reflexivity|]);
        cbn [filter is_progress is_finished is_file_write app List.length]; auto.
    + cbv beta iota zeta delta [fst]. rewrite two.
      eexists; split; [reflexivity|].
      cbn [filter is_progress is_finished is_file_write app List.length]; auto.
  - cbv beta iota zeta delta [fst]. rewrite two.
    eexists; split; [reflexivity|].
    cbn [filter is_progress is_finished is_file_write app List.length]; auto.
Qed.

Lemma filter_progress_loop (idx : nat) (l : list str) :
  filter is_progress (loop_events L self idx l)
  = progress_events (List.length (items self)) idx l.
Proof.
  revert idx. induction l as [|item l IH]; intros idx; simpl; [reflexivity|].
  destruct (iteration_shape idx item) as (evs & -> & Hp & _).
  rewrite !filter_app, Hp, IH. reflexivity.
Qed.

Lemma progress_events_length (total idx : nat) (l : list str) :
  List.length (progress_events total idx l) = List.length l.
Proof. revert idx. induction l; intros; simpl; auto. Qed.

Lemma filter_finished_loop (idx : nat) (l : list str) :
  filter is_finished (loop_events L self idx l) = [].
Proof.
  revert idx. induction l as [|item l IH]; intros idx; simpl; [reflexivity|].
  destruct (iteration_shape idx item) as (evs & -> & _ & Hf & _).
  rewrite !filter_app, Hf, IH. reflexivity.
Qed.

Lemma file_writes_loop (idx : nat) (l : list str) :
  (count_events is_file_write (loop_events L self idx l) <= List.length l)%nat.
Proof.
  unfold count_events.
  revert idx. induction l as [|item l IH]; intros idx; simpl; [lia|].
  destruct (iteration_shape idx item) as (evs & -> & _ & _ & Hw).
  rewrite !filter_app, !length_app. simpl. specialize (IH (S idx)). lia.
Qed.


(** *** The invariant of all schedules *)

Lemma start_consistent : consistent L self (start self).
Proof. exists []. simpl. repeat split; reflexivity. Qed.

Lemma worker_step_consistent (s : worker_state) :
  consistent L self s -> consistent L self (worker_step L self s).
Proof.
  intros (done & Hi & Hn & Hs & Hc & He).
  unfold worker_step. destruct (returned s) eqn:Hr.
  { exists done. rewrite Hr. auto. }
  assert (Hfin : consistent L self (finish s)).
  { exists done. unfold finish. simpl. rewrite He. rewrite app_nil_r. auto. }
  destruct (pending s) as [|item rest] eqn:Hp; [exact Hfin|].
  destruct (_stop s); [exact Hfin|].
  destruct (iteration L self (next_idx s) item) as [evs ok] eqn:Hit.
  exists (done ++ [item]).
  cbn [pending next_idx success failed emitted returned].
  rewrite loop_events_app, loop_successes_app, length_app.
  cbn [loop_events loop_successes List.length].
  replace (1 + List.length done)%nat with (next_idx s) by lia.
  rewrite Hit. cbn [fst snd].
  split; [rewrite Hi, <- app_assoc; reflexivity|].
  split; [lia|].
  split; [destruct ok; lia|].
  split; [destruct ok; lia|].
  rewrite He, !app_nil_r. reflexivity.
Qed.

Lemma stop_consistent (s : worker_state) :
  consistent L self s -> consistent L self (stop s).
Proof. intros (done & H). exists done. exact H. Qed.

Lemma exec_consistent (sched : list action) (s : worker_state) :
  consistent L self s -> consistent L self (exec L self sched s).
Proof.
  revert s. induction sched as [|a sched IH]; intros s H; [exact H|].
  rewrite exec_cons. apply IH.
  destruct a; [now apply worker_step_consistent | now apply stop_consistent].
Qed.

Lemma consistent_counts (s : worker_state) :
  consistent L self s ->
  (success s + failed s = taken self s)%nat
  /\ (taken self s <= List.length (items self))%nat
  /\ count_events is_progress (emitted s) = taken self s
  /\ (count_events is_file_write (emitted s) <= taken self s)%nat
  /\ (count_events is_finished (emitted s) <= 1)%nat.
Proof.
  intros (done & Hi & Hn & Hs & Hc & He).
  assert (Ht : taken self s = List.length done).
  { unfold taken. rewrite Hi, length_app. lia. }
  unfold count_events. rewrite Ht, He, !filter_app, !length_app.
  rewrite filter_progress_loop, progress_events_length, filter_finished_loop.
  pose proof (file_writes_loop 1 done) as Hw. unfold count_events in Hw.
  rewrite Hi, length_app.
  destruct (returned s); simpl; repeat split; lia.
Qed.

(** *** After [stop()] *)

Lemma stop_idempotent (s : worker_state) : _stop s = true -> stop s = s.
Proof. destruct s; simpl; intros ->; reflexivity. Qed.

Lemma worker_step_stopped (s : worker_state) :
  _stop s = true ->
  worker_step L self s = if returned s then s else finish s.
Proof.
  intros H. unfold worker_step. rewrite H.
  destruct (returned s); [reflexivity|]. destruct (pending s); reflexivity.
Qed.

(** Once the flag is set the state is frozen, up to the one [finished]
    that the worker emits when it next reaches the head of the loop. *)
Lemma exec_stopped (sched : list action) (s : worker_state) :
  _stop s = true ->
  _stop (exec L self sched s) = true
  /\ pending (exec L self sched s) = pending s
  /\ success (exec L self sched s) = success s
  /\ failed (exec L self sched s) = failed s
  /\ ((returned (exec L self sched s) = returned s
       /\ emitted (exec L self sched s) = emitted s)
      \/ (returned s = false /\ returned (exec L self sched s) = true
          /\ emitted (exec L self sched s)
             = emitted s ++ [finished (success s) (failed s)]))
  /\ (In Work sched -> returned (exec L self sched s) = true).
Proof.
  revert s. induction sched as [|a sched IH]; intros s Hs.
  - simpl. split_all; auto; intros [].
  - rewrite exec_cons. destruct a; simpl perform.
    + rewrite (worker_step_stopped s Hs). destruct (returned s) eqn:Hr.
      * destruct (IH s Hs) as (H1 & H2 & H3 & H4 & H5 & H6).
        split_all; auto.
        -- rewrite Hr in H5. destruct H5 as [H5|(H5 & _)]; [now left|discriminate].
        -- intros _. destruct H5 as [[H5 _]|(H5 & _)]; congruence.
      * destruct (IH (finish s) Hs) as (H1 & H2 & H3 & H4 & H5 & H6).
        split_all; auto.
        -- right. split; [reflexivity|].
           destruct H5 as [[H5 H7]|(H5 & _)]; [|discriminate]. auto.
        -- intros _. destruct H5 as [[H5 _]|(H5 & _)]; [exact H5|discriminate].
    + rewrite (stop_idempotent s Hs).
      destruct (IH s Hs) as (H1 & H2 & H3 & H4 & H5 & H6).
      split_all; auto. intros [F|Hin]; [discriminate|auto].
Qed.

Lemma stop_sets_flag (sched : list action) (s : worker_state) :
  _stop (exec L self (sched ++ [Stop]) s) = true.
Proof. rewrite exec_app. reflexivity. Qed.

(** C4. Take any schedule of the worker and its caller, up to a call of
    [stop()], and any continuation of it. From the call on: the pending
    items stay pending and the counters stay as they are; no [progress]
    signal and no call of [save] is added; the only event that can follow
    is the one [finished(success, failed)] with the counters of that
    moment, and the first step the worker takes emits it (unless [run] had
    returned already) and ends [run]. At the call the counters add up to the
    number of items taken from the list, which is also the number of
    [progress] signals, and bounds the number of calls of [save]. *)
Theorem stop_ends_the_batch (before after : list action) :
  let s := exec L self (before ++ [Stop]) (start self) in
  let s' := exec L self after s in
  pending s' = pending s
  /\ success s' = success s /\ failed s' = failed s
  /\ filter is_progress (emitted s') = filter is_progress (emitted s)
  /\ filter is_file_write (emitted s') = filter is_file_write (emitted s)
  /\ (emitted s' = emitted s
      \/ (returned s = false
          /\ emitted s' = emitted s ++ [finished (success s) (failed s)]))
  /\ (In Work after ->
        returned s' = true
        /\ exists evs, emitted s' = evs ++ [finished (success s) (failed s)]
                       /\ filter is_finished evs = [])
  /\ (success s + failed s = taken self s)%nat
  /\ (taken self s <= List.length (items self))%nat
  /\ count_events is_progress (emitted s) = taken self s
  /\ (count_events is_file_write (emitted s) <= taken self s)%nat.
Proof.
  intros s s'.
  assert (Hflag : _stop s = true) by apply stop_sets_flag.
  assert (Hcons : consistent L self s) by (apply exec_consistent, start_consistent).
  destruct (exec_stopped after s Hflag) as (_ & Hp & Hsu & Hfa & Hem & Hret).
  fold s' in Hp, Hsu, Hfa, Hem, Hret.
  destruct (consistent_counts s Hcons) as (Hc1 & Hc2 & Hc3 & Hc4 & _).
  split_all; auto.
  - destruct Hem as [[_ ->]|(_ & _ & ->)]; [reflexivity|].
    rewrite filter_app. simpl. now rewrite app_nil_r.
  - destruct Hem as [[_ ->]|(_ & _ & ->)]; [reflexivity|].
    rewrite filter_app. simpl. now rewrite app_nil_r.
  - destruct Hem as [[_ H]|(H & _ & H')]; [now left|now right].
  - intros Hin. split; [now apply Hret|].
    specialize (Hret Hin).
    destruct Hcons as (done & _ & _ & _ & _ & He).
    destruct Hem as [[Hr H]|(Hr & _ & H)].
    + rewrite Hret in Hr. rewrite <- Hr in He. rewrite H, He.
      eexists. split; [reflexivity|]. apply filter_finished_loop.
    + rewrite Hr, app_nil_r in He. rewrite H, He.
      eexists. split; [reflexivity|]. apply filter_finished_loop.
Qed.

(** *** Without [stop()] *)




End BatchProperties.

(** ** Python floats: [int(n * 0.22)] *)

(** The constant [float_0_22] is what the literal 0.22 denotes: Rocq's own
    binary64 literal, rounded to nearest by the parser, has this sign,
    mantissa and exponent; and it lies within half a unit in the last place
    (2^-56) of 22/100, which it exceeds by 4 / (100 * 2^55). *)
#[local] Set Warnings "-inexact-float".
Example float_0_22_literal : Prim2SF 0.22%float = float_0_22.
Proof. reflexivity. Qed.
#[local] Set Warnings "inexact-float".

Lemma float_0_22_nearest :
  100 * 7926335344172073 - 22 * 2 ^ 55 = 4
  /\ 2 * Z.abs (100 * 7926335344172073 - 22 * 2 ^ 55) <= 100.
Proof. split; [reflexivity|vm_compute; discriminate]. Qed.

Lemma digits2_pos_bounds (p : positive) :
  2 ^ (Zpos (digits2_pos p) - 1) <= Zpos p < 2 ^ Zpos (digits2_pos p).
Proof.
  induction p as [p IH|p IH|]; cbn [digits2_pos].
  - rewrite Pos2Z.inj_succ, Z.pow_succ_r by lia.
    replace (Z.succ (Zpos (digits2_pos p)) - 1) with (Z.succ (Zpos (digits2_pos p) - 1)) by lia.
    rewrite Z.pow_succ_r by lia. lia.
  - rewrite Pos2Z.inj_succ, Z.pow_succ_r by lia.
    replace (Z.succ (Zpos (digits2_pos p)) - 1) with (Z.succ (Zpos (digits2_pos p) - 1)) by lia.
    rewrite Z.pow_succ_r by lia. lia.
  - simpl. lia.
Qed.

Lemma digits2_pos_unique (p : positive) (d : Z) :
  2 ^ (d - 1) <= Zpos p < 2 ^ d -> Zpos (digits2_pos p) = d.
Proof.
  intros [Hlo Hhi].
  destruct (digits2_pos_bounds p) as [Blo Bhi].
  assert (0 < d).
  { destruct (Z_lt_le_dec 0 d); [assumption|].
    assert (2 ^ d <= 1).
    { destruct (Z.eq_dec d 0) as [->|]; [simpl; lia|].
      rewrite Z.pow_neg_r by lia. lia. }
    lia. }
  assert (Zpos (digits2_pos p) - 1 < d).
  { apply (Z.pow_lt_mono_r_iff 2); lia. }
  assert (d - 1 < Zpos (digits2_pos p)).
  { apply (Z.pow_lt_mono_r_iff 2); lia. }
  lia.
Qed.

Lemma shr_1_m (mrs : shr_record) :
  0 <= shr_m mrs -> shr_m (shr_1 mrs) = shr_m mrs / 2 /\ 0 <= shr_m (shr_1 mrs).
Proof.
  destruct mrs as [m r s]. cbn [shr_m]. intros Hm.
  destruct m as [|[p|p|]|p]; cbn [shr_1 shr_m]; try lia; (split; [|lia]).
  - reflexivity.
  - apply (Z.div_unique _ _ _ 1); lia.
  - apply (Z.div_unique _ _ _ 0); lia.
  - reflexivity.
Qed.

Lemma iter_shr_m (n : positive) (mrs : shr_record) :
  0 <= shr_m mrs ->
  shr_m (iter_pos shr_1 n mrs) = shr_m mrs / 2 ^ Zpos n
  /\ 0 <= shr_m (iter_pos shr_1 n mrs).
Proof.
  revert mrs. induction n as [n IH|n IH|]; intros mrs Hm; cbn [iter_pos].
  - destruct (shr_1_m mrs Hm) as [E1 P1].
    destruct (IH _ P1) as [E2 P2]. destruct (IH _ P2) as [E3 P3].
    split; [|exact P3].
    rewrite E3, E2, E1, !Z.div_div by lia.
    f_equal. replace (Zpos n~1) with (1 + Zpos n + Zpos n) by lia.
    rewrite !Z.pow_add_r by lia. change (2 ^ 1) with 2. ring.
  - destruct (IH _ Hm) as [E2 P2]. destruct (IH _ P2) as [E3 P3].
    split; [|exact P3].
    rewrite E3, E2, !Z.div_div by lia.
    f_equal. replace (Zpos n~0) with (Zpos n + Zpos n) by lia.
    now rewrite Z.pow_add_r by lia.
  - apply shr_1_m, Hm.
Qed.

Lemma round_nearest_even_cases (m : Z) (l : location) :
  round_nearest_even m l = m \/ round_nearest_even m l = m + 1.
Proof.
  destruct l as [|[| |]]; simpl; auto. destruct (Z.even m); auto.
Qed.

(** A mantissa of exactly 53 bits in the exponent range is a double as it stands. *)
Lemma round_aux_exact (m : positive) (e : Z) :
  Zpos (digits2_pos m) = 53 -> -1074 <= e <= 971 ->
  binary_round_aux prec emax false (Zpos m) e loc_Exact = S754_finite false m e.
Proof.
  intros Hd He.
  assert (F : fexp prec emax (Zpos (digits2_pos m) + e) - e = 0).
  { unfold fexp, SpecFloat.emin, prec, emax. lia. }
  unfold binary_round_aux, shr_fexp.
  cbn [Zdigits2 shr_record_of_loc]. rewrite F. cbn [shr shr_m loc_of_shr_record round_nearest_even].
  cbn [Zdigits2 shr_record_of_loc]. rewrite F. cbn [shr shr_m].
  destruct (Z.leb_spec e (emax - prec)); [reflexivity|]. unfold emax, prec in *. lia.
Qed.


(** A longer mantissa is shifted right by the excess [k] and rounded: the
    result is the quotient or its successor, renormalised when the successor
    is 2^53. *)
Lemma round_aux_shift (m : positive) (e k : Z) :
  0 < k -> Zpos (digits2_pos m) = 53 + k -> -1074 <= e + k < 971 ->
  exists m' j,
    binary_round_aux prec emax false (Zpos m) e loc_Exact
    = S754_finite false m' (e + k + j)
    /\ (j = 0 \/ j = 1)
    /\ (Zpos m' * 2 ^ j = Zpos m / 2 ^ k \/ Zpos m' * 2 ^ j = Zpos m / 2 ^ k + 1).
Proof.
  intros Hk Hd He.
  destruct (digits2_pos_bounds m) as [Blo Bhi]. rewrite Hd in Blo, Bhi.
  replace (53 + k - 1) with (k + 52) in Blo by lia.
  replace (53 + k) with (k + 53) in Bhi by lia.
  rewrite Z.pow_add_r in Blo, Bhi by lia.
  assert (P2 : 0 < 2 ^ k) by (apply Z.pow_pos_nonneg; lia).
  set (q := Zpos m / 2 ^ k).
  assert (Hq : 2 ^ 52 <= q < 2 ^ 53).
  { unfold q. split.
    - apply Z.div_le_lower_bound; lia.
    - apply Z.div_lt_upper_bound; lia. }
  assert (F : fexp prec emax (Zpos (digits2_pos m) + e) - e = k).
  { unfold fexp, SpecFloat.emin, prec, emax. lia. }
  destruct k as [|kp|kp]; try lia.
  assert (S1 : shr_fexp prec emax (Zpos m) e loc_Exact
               = (iter_pos shr_1 kp (Build_shr_record (Zpos m) false false), e + Zpos kp)).
  { unfold shr_fexp. cbn [Zdigits2 shr_record_of_loc]. rewrite F. reflexivity. }
  unfold binary_round_aux. rewrite S1. cbv beta iota.
  destruct (iter_shr_m kp (Build_shr_record (Zpos m) false false)) as [Em _];
    [cbn; lia|]. cbn [shr_m] in Em. fold q in Em.
  rewrite Em.
  destruct (round_nearest_even_cases q
              (loc_of_shr_record (iter_pos shr_1 kp (Build_shr_record (Zpos m) false false))))
    as [E1|E1]; rewrite E1.
  - (* rounded down *)
    destruct q as [|qp|qp] eqn:Eq; try (change (2 ^ 52) with 4503599627370496 in Hq; lia).
    assert (Dq : Zpos (digits2_pos qp) = 53) by (apply digits2_pos_unique; exact Hq).
    assert (F2 : fexp prec emax (Zpos (digits2_pos qp) + (e + Zpos kp)) - (e + Zpos kp) = 0).
    { unfold fexp, SpecFloat.emin, prec, emax. lia. }
    unfold shr_fexp. cbn [Zdigits2 shr_record_of_loc]. rewrite F2. cbn [shr shr_m].
    exists qp, 0. rewrite Z.add_0_r, Z.mul_1_r.
    destruct (Z.leb_spec (e + Zpos kp) (emax - prec)); [auto|]. unfold emax, prec in *. lia.
  - (* rounded up *)
    destruct (Z.eq_dec (q + 1) (2 ^ 53)) as [E2|E2].
    + rewrite E2. change (2 ^ 53) with 9007199254740992.
      assert (F2 : fexp prec emax (Zdigits2 9007199254740992 + (e + Zpos kp)) - (e + Zpos kp) = 1).
      { unfold fexp, SpecFloat.emin, prec, emax. cbn [Zdigits2 digits2_pos Pos.succ]. lia. }
      unfold shr_fexp. cbn [shr_record_of_loc]. rewrite F2. cbn [shr iter_pos shr_1 shr_m].
      exists 4503599627370496%positive, 1.
      destruct (Z.leb_spec (e + Zpos kp + 1) (emax - prec));
        [|unfold emax, prec in *; lia].
      split; [reflexivity|]. split; [auto|]. right. reflexivity.
    + destruct (q + 1) as [|qp|qp] eqn:Eq; try lia.
      assert (Dq : Zpos (digits2_pos qp) = 53).
      { apply digits2_pos_unique. change (53 - 1) with 52. lia. }
      assert (F2 : fexp prec emax (Zpos (digits2_pos qp) + (e + Zpos kp)) - (e + Zpos kp) = 0).
      { unfold fexp, SpecFloat.emin, prec, emax. lia. }
      unfold shr_fexp. cbn [Zdigits2 shr_record_of_loc]. rewrite F2. cbn [shr shr_m].
      exists qp, 0. rewrite Z.add_0_r, Z.mul_1_r.
      destruct (Z.leb_spec (e + Zpos kp) (emax - prec)); [auto|]. unfold emax, prec in *. lia.
Qed.


Lemma iter_xO (p k : positive) : Zpos (Pos.iter xO p k) = Zpos p * 2 ^ Zpos k.
Proof.
  induction k as [|k IH] using Pos.peano_ind.
  - simpl. lia.
  - rewrite Pos.iter_succ, Pos2Z.inj_xO, IH, Pos2Z.inj_succ, Z.pow_succ_r by lia. ring.
Qed.

(** [float(n)] for a positive int below 2^52: the int itself, its
    mantissa shifted up to 53 bits. *)
Lemma float_of_int_small (p : positive) :
  Zpos p < 2 ^ 52 ->
  exists mz,
    float_of_int (Zpos p) = Return (S754_finite false mz (Zpos (digits2_pos p) - 53))
    /\ Zpos mz = Zpos p * 2 ^ (53 - Zpos (digits2_pos p))
    /\ Zpos (digits2_pos mz) = 53.
Proof.
  intros Hp.
  destruct (digits2_pos_bounds p) as [Blo Bhi].
  set (d := Zpos (digits2_pos p)) in *.
  assert (Hd : 0 < d < 53).
  { split; [unfold d; lia|].
    apply (Z.pow_lt_mono_r_iff 2); try lia.
    replace 53 with (Z.succ 52) by lia. rewrite Z.pow_succ_r by lia.
    assert (0 < 2 ^ (d - 1)) by (apply Z.pow_pos_nonneg; lia).
    replace d with (Z.succ (d - 1)) by lia. rewrite Z.pow_succ_r by lia. lia. }
  assert (F : fexp prec emax (d + 0) = d - 53).
  { unfold fexp, SpecFloat.emin, prec, emax. lia. }
  unfold float_of_int, binary_normalize, binary_round, shl_align.
  fold d. rewrite F, Z.sub_0_r.
  destruct (d - 53) as [|x|x] eqn:Ex; try lia.
  assert (Hx : Zpos x = 53 - d) by lia.
  assert (Hm : Zpos (Pos.iter xO p x) = Zpos p * 2 ^ (53 - d)).
  { rewrite iter_xO, Hx. reflexivity. }
  assert (Hdig : Zpos (digits2_pos (Pos.iter xO p x)) = 53).
  { assert (E52 : 2 ^ 52 = 2 ^ (d - 1) * 2 ^ (53 - d)).
    { rewrite <- Z.pow_add_r by lia. f_equal. lia. }
    assert (E53 : 2 ^ 53 = 2 ^ d * 2 ^ (53 - d)).
    { rewrite <- Z.pow_add_r by lia. f_equal. lia. }
    assert (0 < 2 ^ (53 - d)) by (apply Z.pow_pos_nonneg; lia).
    apply digits2_pos_unique. rewrite Hm. change (53 - 1) with 52.
    split.
    - rewrite E52. apply Z.mul_le_mono_nonneg_r; lia.
    - rewrite E53. apply Z.mul_lt_mono_pos_r; lia. }
  rewrite round_aux_exact by (auto; lia).
  exists (Pos.iter xO p x). auto.
Qed.

(** The arithmetic behind [int(n * 0.22)]: the double 0.22 exceeds 22/100
    by 4 / (100 * 2^55), too little to reach the next integer. *)
Lemma scaled_quotient (p C T m1 : Z) :
  0 < p < 2 ^ 31 -> 0 < C <= 2 ^ 31 -> C * T = 2 ^ 55 ->
  m1 = p * 7926335344172073 / C \/ m1 = p * 7926335344172073 / C + 1 ->
  m1 / T = 22 * p / 100.
Proof.
  intros Hp HC HCT Hm.
  change (2 ^ 31) with 2147483648 in *. change (2 ^ 55) with 36028797018963968 in *.
  assert (HT : 0 < T) by nia.
  set (K := 22 * p / 100).
  assert (HK : 100 * K <= 22 * p < 100 * K + 100).
  { unfold K. split; [apply Z.mul_div_le; lia|].
    pose proof (Z.mul_succ_div_gt (22 * p) 100). lia. }
  set (X := p * 7926335344172073) in *.
  set (q := X / C) in *.
  assert (Hq : C * q <= X < C * q + C).
  { unfold q. split; [apply Z.mul_div_le; lia|].
    pose proof (Z.mul_succ_div_gt X C). lia. }
  assert (Hlo : K * T <= q).
  { destruct (Z_le_gt_dec (K * T) q) as [|Hgt]; [assumption|exfalso].
    assert (C * (q + 1) <= C * (K * T)) by (apply Z.mul_le_mono_nonneg_l; lia).
    replace (C * (K * T)) with (K * (C * T)) in * by ring. rewrite HCT in *.
    unfold X in *. lia. }
  assert (Hhi : q + 1 < (K + 1) * T).
  { destruct (Z_lt_ge_dec (q + 1) ((K + 1) * T)) as [|Hge]; [assumption|exfalso].
    assert (C * ((K + 1) * T) <= C * (q + 1)) by (apply Z.mul_le_mono_nonneg_l; lia).
    replace (C * ((K + 1) * T)) with ((K + 1) * (C * T)) in * by ring. rewrite HCT in *.
    unfold X in *. lia. }
  symmetry. apply (Z.div_unique _ _ _ (m1 - K * T)); [left|]; destruct Hm; nia.
Qed.


(** [int(n * 0.22)] is the floor of 22 n / 100 for every n an image
    dimension can be (Pillow keeps sizes in C ints). *)
Lemma max_dim_of_value (w h : Z) :
  0 <= Z.min w h < 2 ^ 31 ->
  max_dim_of w h = Return (22 * Z.min w h / 100).
Proof.
  intros Hn. unfold max_dim_of.
  destruct (Z.min w h) as [|p|p] eqn:En; [reflexivity| |lia].
  assert (Hp52 : Zpos p < 2 ^ 52).
  { change (2 ^ 31) with 2147483648 in Hn. change (2 ^ 52) with 4503599627370496. lia. }
  destruct (float_of_int_small p Hp52) as (mz & E & Hmz & Hdig).
  rewrite E. cbn [bind]. unfold float_mul, float_0_22, SFmul. cbn [xorb].
  destruct (digits2_pos_bounds p) as [Blo Bhi].
  set (d := Zpos (digits2_pos p)) in *.
  assert (Hd : 0 < d <= 31).
  { split; [unfold d; lia|].
    assert (d - 1 < 31); [|lia]. apply (Z.pow_lt_mono_r_iff 2); lia. }
  destruct (digits2_pos_bounds mz) as [Mlo Mhi]. rewrite Hdig in Mlo, Mhi.
  change (2 ^ (53 - 1)) with 4503599627370496 in Mlo.
  change (2 ^ 53) with 9007199254740992 in Mhi.
  set (P := (mz * 7926335344172073)%positive).
  assert (HP : Zpos P = Zpos mz * 7926335344172073) by reflexivity.
  destruct (digits2_pos_bounds P) as [Plo Phi].
  set (D := Zpos (digits2_pos P)) in *.
  assert (HD : 104 < D < 107).
  { split.
    - apply (Z.pow_lt_mono_r_iff 2); [lia|unfold D; lia|].
      change (2 ^ 104) with 20282409603651670423947251286016. lia.
    - assert (D - 1 < 106); [|lia].
      apply (Z.pow_lt_mono_r_iff 2); [lia|lia|].
      change (2 ^ 106) with 81129638414606681695789005144064. lia. }
  destruct (round_aux_shift P (d - 53 + -55) (D - 53)) as (m' & j & E2 & Hj & Hm');
    [lia|unfold D; lia|lia|].
  rewrite E2. unfold int_of_float.
  destruct (Z.leb_spec 0 (d - 53 + -55 + (D - 53) + j)) as [Hge|_]; [lia|].
  f_equal.
  set (t := 161 - d - D).
  assert (Ht : 0 < t) by (unfold t; lia).
  assert (Pt : 0 < 2 ^ (t - 1)) by (apply Z.pow_pos_nonneg; lia).
  assert (Es : Zpos m' / 2 ^ (- (d - 53 + -55 + (D - 53) + j)) = (Zpos m' * 2 ^ j) / 2 ^ t).
  { destruct Hj as [-> | ->].
    - rewrite Z.mul_1_r. f_equal. f_equal. unfold t. lia.
    - replace (- (d - 53 + -55 + (D - 53) + 1)) with (t - 1) by (unfold t; lia).
      replace t with (Z.succ (t - 1)) at 2 by lia.
      rewrite Z.pow_succ_r by lia. change (2 ^ 1) with 2.
      rewrite (Z.mul_comm 2 (2 ^ (t - 1))).
      now rewrite Z.div_mul_cancel_r by lia. }
  rewrite Es.
  set (c := D - 106 + d).
  assert (Hc : 0 <= c <= 31) by (unfold c; lia).
  apply (scaled_quotient (Zpos p) (2 ^ c) (2 ^ t)).
  - lia.
  - split; [apply Z.pow_pos_nonneg; lia|apply Z.pow_le_mono_r; lia].
  - rewrite <- Z.pow_add_r by lia. f_equal. unfold c, t. lia.
  - assert (Eq : Zpos P / 2 ^ (D - 53) = Zpos p * 7926335344172073 / 2 ^ c).
    { rewrite HP, Hmz. fold d.
      replace (D - 53) with (c + (53 - d)) by (unfold c; lia).
      rewrite Z.pow_add_r by lia.
      replace (Zpos p * 2 ^ (53 - d) * 7926335344172073)
        with (Zpos p * 7926335344172073 * 2 ^ (53 - d)) by ring.
      assert (0 < 2 ^ (53 - d)) by (apply Z.pow_pos_nonneg; lia).
      assert (0 < 2 ^ c) by (apply Z.pow_pos_nonneg; lia).
      rewrite Z.div_mul_cancel_r by lia. reflexivity. }
    rewrite <- Eq. exact Hm'.
Qed.

(** ** Images: blending and pasting *)

Lemma DIV255_mul_255 (b : Z) : 0 <= b <= 255 -> DIV255 (b * 255) = b.
Proof.
  intros Hb. unfold DIV255. rewrite !Z.shiftr_div_pow2 by lia.
  change (2 ^ 8) with 256.
  assert (E : (b * 255 + 128) / 256 = if b <=? 128 then b else b - 1).
  { destruct (Z.leb_spec b 128); symmetry.
    - apply (Z.div_unique _ _ _ (128 - b)); lia.
    - apply (Z.div_unique _ _ _ (384 - b)); lia. }
  rewrite E. destruct (Z.leb_spec b 128); symmetry.
  - apply (Z.div_unique _ _ _ 128); lia.
  - apply (Z.div_unique _ _ _ 127); lia.
Qed.

(** A mask of 255 takes the pasted band, a mask of 0 keeps the old one. *)
Lemma BLEND8_255 (a b : Z) : 0 <= b <= 255 -> BLEND8 255 a b = b.
Proof.
  intros Hb. unfold BLEND8.
  replace (a * (255 - 255) + b * 255) with (b * 255) by ring.
  rewrite DIV255_mul_255 by lia. apply Z.mod_small. lia.
Qed.

Lemma BLEND8_0 (a b : Z) : 0 <= a <= 255 -> BLEND8 0 a b = a.
Proof.
  intros Ha. unfold BLEND8.
  replace (a * (255 - 0) + b * 0) with (a * 255) by ring.
  rewrite DIV255_mul_255 by lia. apply Z.mod_small. lia.
Qed.

Lemma blend_pixel_255 (out inp : pixel) :
  byte_pixel inp -> blend_pixel 255 out inp = inp.
Proof.
  destruct inp as [[[r g] b] a]. unfold byte_pixel, blend_pixel. simpl.
  intros (Hr & Hg & Hb & Ha). now rewrite !BLEND8_255.
Qed.

Lemma blend_pixel_0 (out inp : pixel) :
  byte_pixel out -> blend_pixel 0 out inp = out.
Proof.
  destruct out as [[[r g] b] a]. unfold byte_pixel, blend_pixel. simpl.
  intros (Hr & Hg & Hb & Ha). now rewrite !BLEND8_0.
Qed.

Lemma mapi_from_length {A B} (f : nat -> A -> B) (k : nat) (l : list A) :
  List.length (mapi_from f k l) = List.length l.
Proof. revert k. induction l; intros; simpl; auto. Qed.

Lemma mapi_from_nth {A B} (f : nat -> A -> B) (k i : nat) (l : list A) (da : A) (db : B) :
  (i < List.length l)%nat ->
  nth i (mapi_from f k l) db = f (k + i)%nat (nth i l da).
Proof.
  revert k i. induction l as [|a l IH]; intros k i Hi; simpl in *; [lia|].
  destruct i as [|i].
  - now rewrite Nat.add_0_r.
  - rewrite IH by lia. f_equal. lia.
Qed.

Lemma mapi_from_ext {A B} (f g : nat -> A -> B) (k : nat) (l : list A) :
  (forall i a, (i < List.length l)%nat -> nth_error l i = Some a -> f (k + i)%nat a = g (k + i)%nat a) ->
  mapi_from f k l = mapi_from g k l.
Proof.
  revert k. induction l as [|a l IH]; intros k H; simpl; [reflexivity|].
  f_equal.
  - specialize (H 0%nat a). rewrite Nat.add_0_r in H. apply H; simpl; auto; lia.
  - apply IH. intros i b Hi Hb.
    replace (S k + i)%nat with (k + S i)%nat by lia. apply H; simpl; auto; lia.
Qed.

Lemma mapi_from_twice {A} (f g : nat -> A -> A) (k : nat) (l : list A) :
  mapi_from g k (mapi_from f k l) = mapi_from (fun i a => g i (f i a)) k l.
Proof. revert k. induction l as [|a l IH]; intros k; simpl; [reflexivity|]. now rewrite IH. Qed.

Lemma paste_size (dst src mask : image) (box : Z * Z) :
  size_w (paste dst src box mask) = size_w dst
  /\ size_h (paste dst src box mask) = size_h dst
  /\ List.length (getdata (paste dst src box mask)) = List.length (getdata dst).
Proof.
  destruct box as [dx dy]. unfold paste, putdata. cbn [size_w size_h getdata].
  rewrite mapi_from_length. auto.
Qed.

(** Row-major addressing. *)
Lemma index_in_bounds (w h x y : Z) :
  0 <= x < w -> 0 <= y < h ->
  (Z.to_nat (y * w + x) < Z.to_nat (w * h))%nat
  /\ Z.of_nat (Z.to_nat (y * w + x)) mod w = x
  /\ Z.of_nat (Z.to_nat (y * w + x)) / w = y.
Proof.
  intros Hx Hy.
  assert (0 <= y * w) by nia.
  rewrite Z2Nat.id by lia.
  split; [|split].
  - apply Z2Nat.inj_lt; nia.
  - symmetry. apply (Z.mod_unique _ _ y); lia.
  - symmetry. apply (Z.div_unique _ _ _ x); lia.
Qed.

(** A pixel of the result of [paste], at a position inside the image. *)
Lemma getpixel_paste (dst src mask : image) (dx dy x y : Z) :
  List.length (getdata dst) = Z.to_nat (size_w dst * size_h dst) ->
  in_image dst x y = true ->
  getpixel (paste dst src (dx, dy) mask) x y
  = if in_image src (x - dx) (y - dy)
    then blend_pixel (band_a (getpixel mask (x - dx) (y - dy)))
                     (getpixel dst x y) (getpixel src (x - dx) (y - dy))
    else getpixel dst x y.
Proof.
  intros Hlen Hin. unfold in_image in Hin.
  rewrite !andb_true_iff, !Z.leb_le, !Z.ltb_lt in Hin.
  destruct (index_in_bounds (size_w dst) (size_h dst) x y) as (Hi & Hmod & Hdiv); [lia|lia|].
  unfold getpixel at 1. unfold paste, putdata. cbn [size_w getdata].
  rewrite <- Hlen in Hi.
  rewrite (mapi_from_nth _ _ _ _ (0, 0, 0, 0)) by exact Hi.
  cbn [Nat.add]. rewrite Hmod, Hdiv. reflexivity.
Qed.

Lemma getpixel_Image_new (w h x y : Z) (color : pixel) :
  0 <= x < w -> 0 <= y < h -> getpixel (Image_new w h color) x y = color.
Proof.
  intros Hx Hy. unfold getpixel, Image_new. cbn [size_w getdata].
  destruct (index_in_bounds w h x y) as (Hi & _); [lia|lia|].
  apply nth_repeat_lt. exact Hi.
Qed.

Lemma getpixel_In (im : image) (x y : Z) :
  List.length (getdata im) = Z.to_nat (size_w im * size_h im) ->
  in_image im x y = true -> In (getpixel im x y) (getdata im).
Proof.
  intros Hlen Hin. unfold in_image in Hin.
  rewrite !andb_true_iff, !Z.leb_le, !Z.ltb_lt in Hin.
  destruct (index_in_bounds (size_w im) (size_h im) x y) as (Hi & _); [lia|lia|].
  rewrite <- Hlen in Hi.
  unfold getpixel. apply nth_In. exact Hi.
Qed.

(** Pasting an opaque overlay a second time changes nothing. *)
Lemma paste_opaque_twice (dst pad : image) (pos : Z * Z) :
  (forall x y, in_image pad x y = true ->
               band_a (getpixel pad x y) = 255 /\ byte_pixel (getpixel pad x y)) ->
  paste (paste dst pad pos pad) pad pos pad = paste dst pad pos pad.
Proof.
  intros Hpad. destruct pos as [dx dy]. unfold paste, putdata.
  cbn [size_w size_h getdata]. f_equal.
  rewrite mapi_from_twice. apply mapi_from_ext. intros i a _ _. cbn [Nat.add].
  destruct (in_image pad (Z.of_nat i mod size_w dst - dx) (Z.of_nat i / size_w dst - dy)) eqn:E;
    [|reflexivity].
  destruct (Hpad _ _ E) as [Ha Hb]. rewrite Ha.
  now rewrite !blend_pixel_255.
Qed.

(** ** The pad around the logo *)

Lemma make_pad_size (logo : image) :
  size_w (make_pad logo) = size_w logo + 8 /\ size_h (make_pad logo) = size_h logo + 8.
Proof. split; reflexivity. Qed.

Lemma getpixel_make_pad (logo : image) (x y : Z) :
  in_image (make_pad logo) x y = true ->
  getpixel (make_pad logo) x y
  = if in_image logo (x - 4) (y - 4)
    then blend_pixel (band_a (getpixel logo (x - 4) (y - 4))) opaque_white
                     (getpixel logo (x - 4) (y - 4))
    else opaque_white.
Proof.
  intros Hin. unfold make_pad in *.
  assert (Hin' : in_image (Image_new (size_w logo + 8) (size_h logo + 8) (255, 255, 255, 255)) x y = true)
    by exact Hin.
  rewrite getpixel_paste; [|apply repeat_length|exact Hin'].
  unfold in_image in Hin'. cbn [size_w size_h Image_new] in Hin'.
  rewrite !andb_true_iff, !Z.leb_le, !Z.ltb_lt in Hin'.
  rewrite getpixel_Image_new by lia. reflexivity.
Qed.

(** The pad of a logo without partly transparent pixels is opaque. *)
Lemma make_pad_opaque (logo : image) (x y : Z) :
  well_formed logo -> crisp logo ->
  in_image (make_pad logo) x y = true ->
  band_a (getpixel (make_pad logo) x y) = 255 /\ byte_pixel (getpixel (make_pad logo) x y).
Proof.
  intros (_ & _ & Hlen & Hbytes) Hcrisp Hin.
  rewrite getpixel_make_pad by exact Hin.
  destruct (in_image logo (x - 4) (y - 4)) eqn:E.
  - pose proof (getpixel_In logo _ _ Hlen E) as Hmem.
    unfold crisp in Hcrisp. rewrite Forall_forall in Hcrisp, Hbytes.
    specialize (Hcrisp _ Hmem). specialize (Hbytes _ Hmem). cbv beta in Hcrisp.
    destruct Hcrisp as [H0|H255].
    + rewrite H0, blend_pixel_0; unfold opaque_white, byte_pixel; simpl; lia.
    + rewrite H255, blend_pixel_255 by exact Hbytes. auto.
  - unfold opaque_white, byte_pixel. simpl. lia.
Qed.

(** ** add_logo: what is pasted, and where (C8, C7) *)

Lemma add_logo_try_steps (L : Lib) (qr_img : image) (p : str) (logo logo' : image) (m : Z) :
  Image_open L p = Return logo ->
  max_dim_of (size_w qr_img) (size_h qr_img) = Return m ->
  thumbnail L logo (m, m) = Return logo' ->
  add_logo_try L qr_img p
  = Return (paste qr_img (make_pad logo') (pad_pos qr_img (make_pad logo')) (make_pad logo')).
Proof.
  intros Ho Hm Ht. unfold add_logo_try. rewrite Ho. cbn [bind].
  rewrite Hm. cbn [bind]. rewrite Ht. reflexivity.
Qed.

Lemma add_logo_try_inv (L : Lib) (qr_img : image) (p : str) (r : image) :
  add_logo_try L qr_img p = Return r ->
  exists logo m logo',
    Image_open L p = Return logo
    /\ max_dim_of (size_w qr_img) (size_h qr_img) = Return m
    /\ thumbnail L logo (m, m) = Return logo'
    /\ r = paste qr_img (make_pad logo') (pad_pos qr_img (make_pad logo')) (make_pad logo').
Proof.
  unfold add_logo_try.
  destruct (Image_open L p) as [logo|e]; cbn [bind]; [|discriminate].
  destruct (max_dim_of (size_w qr_img) (size_h qr_img)) as [m|e]; cbn [bind]; [|discriminate].
  destruct (thumbnail L logo (m, m)) as [logo'|e] eqn:Ht; cbn [bind]; [|discriminate].
  intros H. inversion H. exists logo, m, logo'. auto.
Qed.

Lemma thumbnail_fits (L : Lib) (logo logo' : image) (m : Z) :
  resize_fits L ->
  thumbnail L logo (m, m) = Return logo' ->
  size_w logo' <= m /\ size_h logo' <= m.
Proof.
  intros Hfit. unfold thumbnail.
  destruct ((size_w logo <=? m) && (size_h logo <=? m)) eqn:E.
  - intros H. inversion H; subst. apply andb_true_iff in E.
    rewrite !Z.leb_le in E. exact E.
  - intros H. apply (Hfit logo (m, m) logo' H).
Qed.

Lemma demo_resize_fits : resize_fits Demo.lib.
Proof.
  intros im [x y] im'. cbn [thumbnail_resize Demo.lib Demo.resize fst snd].
  destruct ((x <=? 0) || (y <=? 0) || (size_w im <=? 0) || (size_h im <=? 0)) eqn:G;
    [discriminate|].
  rewrite !orb_false_iff, !Z.leb_gt in G. destruct G as [[[Hx Hy] Hw] Hh].
  destruct (Z.leb_spec (size_h im * x) (size_w im * y)) as [Hle|Hgt];
    intros H; inversion H; subst; cbn [Demo.nearest size_w size_h].
  - assert (size_h im * x / size_w im <= y) by (apply Z.div_le_upper_bound; lia). lia.
  - assert (size_w im * y / size_h im <= x) by (apply Z.div_le_upper_bound; lia). lia.
Qed.

(** C8. For a QR image whose sides are below 2^31 and a logo that opens:
    [max_dim] is floor(22 * min(w, h) / 100); the logo as it is pasted
    ([logo'], after [thumbnail]) is at most [max_dim] on its larger side,
    that is at most 22% of the smaller side of the QR image; the pad is the
    logo with 8 added to each side length, white and opaque everywhere
    outside the box of the logo placed at (4, 4) -- a border of 4 pixels on
    all sides -- and the logo blended onto white by its own alpha inside;
    [add_logo] returns the QR image with the pad pasted through its alpha at
    ((w - pw) // 2, (h - ph) // 2), where the margins on opposite sides
    differ by at most one pixel. *)
Theorem logo_overlay_geometry
  (L : Lib) (qr_img : image) (p : str) (logo logo' : image) :
  resize_fits L ->
  0 <= size_w qr_img < 2 ^ 31 ->
  0 <= size_h qr_img < 2 ^ 31 ->
  Image_open L p = Return logo ->
  thumbnail L logo (22 * Z.min (size_w qr_img) (size_h qr_img) / 100,
                    22 * Z.min (size_w qr_img) (size_h qr_img) / 100) = Return logo' ->
  max_dim_of (size_w qr_img) (size_h qr_img)
  = Return (22 * Z.min (size_w qr_img) (size_h qr_img) / 100)
  /\ Z.max (size_w logo') (size_h logo')
     <= 22 * Z.min (size_w qr_img) (size_h qr_img) / 100
  /\ 100 * Z.max (size_w logo') (size_h logo')
     <= 22 * Z.min (size_w qr_img) (size_h qr_img)
  /\ size_w (make_pad logo') = size_w logo' + 8
  /\ size_h (make_pad logo') = size_h logo' + 8
  /\ (forall x y,
        in_image (make_pad logo') x y = true ->
        in_image logo' (x - 4) (y - 4) = false ->
        getpixel (make_pad logo') x y = opaque_white)
  /\ (forall x y,
        in_image logo' (x - 4) (y - 4) = true ->
        getpixel (make_pad logo') x y
        = blend_pixel (band_a (getpixel logo' (x - 4) (y - 4))) opaque_white
                      (getpixel logo' (x - 4) (y - 4)))
  /\ add_logo L qr_img p
     = Return (paste qr_img (make_pad logo')
                     ((size_w qr_img - size_w (make_pad logo')) / 2,
                      (size_h qr_img - size_h (make_pad logo')) / 2)
                     (make_pad logo'))
  /\ 0 <= (size_w qr_img - size_w (make_pad logo'))
          - 2 * ((size_w qr_img - size_w (make_pad logo')) / 2) <= 1
  /\ 0 <= (size_h qr_img - size_h (make_pad logo'))
          - 2 * ((size_h qr_img - size_h (make_pad logo')) / 2) <= 1.
Proof.
  intros Hfit Hw Hh Hopen Hthumb.
  assert (Hmin : 0 <= Z.min (size_w qr_img) (size_h qr_img) < 2 ^ 31) by lia.
  pose proof (max_dim_of_value _ _ Hmin) as Hmax.
  destruct (thumbnail_fits L logo logo' _ Hfit Hthumb) as [Fw Fh].
  assert (Hpct : 100 * (22 * Z.min (size_w qr_img) (size_h qr_img) / 100)
                 <= 22 * Z.min (size_w qr_img) (size_h qr_img))
    by (apply Z.mul_div_le; lia).
  assert (Hhalf : forall a, 0 <= a - 2 * (a / 2) <= 1).
  { intros a. pose proof (Z.mul_div_le a 2 ltac:(lia)).
    pose proof (Z.mul_succ_div_gt a 2 ltac:(lia)). lia. }
  split_all; try reflexivity; try lia; try apply Hhalf.
  - exact Hmax.
  - intros x y Hin Hout. rewrite getpixel_make_pad by exact Hin. now rewrite Hout.
  - intros x y Hin. rewrite getpixel_make_pad.
    + now rewrite Hin.
    + unfold in_image in *. cbn [make_pad paste putdata size_w size_h Image_new].
      rewrite !andb_true_iff, !Z.leb_le, !Z.ltb_lt in *. lia.
  - unfold add_logo. rewrite (add_logo_try_steps L qr_img p logo logo' _ Hopen Hmax Hthumb).
    reflexivity.
Qed.

(** A 40x20 logo on the 29x29 image: [max_dim] is 6, the logo is scaled to
    6x3, the pad is 14x11 and goes to (7, 9). *)
Lemma logo_overlay_geometry_witness :
  max_dim_of 29 29 = Return 6
  /\ size_w (make_pad (Demo.nearest Demo.wide_logo 6 3)) = 14
  /\ size_h (make_pad (Demo.nearest Demo.wide_logo 6 3)) = 11
  /\ add_logo Demo.lib Demo.dark (lit "wide.png")
     = Return (paste Demo.dark (make_pad (Demo.nearest Demo.wide_logo 6 3)) (7, 9)
                     (make_pad (Demo.nearest Demo.wide_logo 6 3))).
Proof.
  destruct (logo_overlay_geometry Demo.lib Demo.dark (lit "wide.png")
              Demo.wide_logo (Demo.nearest Demo.wide_logo 6 3))
    as (H1 & _ & _ & H2 & H3 & _ & _ & H4 & _).
  - apply demo_resize_fits.
  - simpl. lia.
  - simpl. lia.
  - reflexivity.
  - reflexivity.
  - split_all; [exact H1|exact H2|exact H3|exact H4].
Defined.

(** C7, as the code has it. Applying [add_logo] to its own result gives
    that result again whenever the logo, as pasted, has no partly
    transparent pixel (every alpha is 0 or 255, every band a byte, the data
    filling the size), and also whenever the logo cannot be pasted at all:
    the pad is then opaque, and pasting it again replaces its box by itself. *)
Theorem add_logo_idempotent_opaque (L : Lib) (qr_img : image) (p : str) :
  (forall logo m logo',
     Image_open L p = Return logo ->
     max_dim_of (size_w qr_img) (size_h qr_img) = Return m ->
     thumbnail L logo (m, m) = Return logo' ->
     well_formed logo' /\ crisp logo') ->
  (once <- add_logo L qr_img p ;; add_logo L once p) = add_logo L qr_img p.
Proof.
  intros Hlogo.
  destruct (add_logo_cases L qr_img p) as [(e & He & Hr)|(r & Hr & Hret)].
  - rewrite Hr. cbn [bind]. exact Hr.
  - rewrite Hret. cbn [bind].
    destruct (add_logo_try_inv L qr_img p r Hr) as (logo & m & logo' & Ho & Hm & Ht & ->).
    destruct (Hlogo logo m logo' Ho Hm Ht) as [Hwf Hcrisp].
    set (pad := make_pad logo').
    set (pos := pad_pos qr_img pad).
    assert (Hsize : size_w (paste qr_img pad pos pad) = size_w qr_img
                    /\ size_h (paste qr_img pad pos pad) = size_h qr_img).
    { destruct (paste_size qr_img pad pad pos) as (A & B & _). auto. }
    destruct Hsize as [Sw Sh].
    unfold add_logo.
    assert (Hm2 : max_dim_of (size_w (paste qr_img pad pos pad))
                             (size_h (paste qr_img pad pos pad)) = Return m)
      by (rewrite Sw, Sh; exact Hm).
    rewrite (add_logo_try_steps L (paste qr_img pad pos pad) p logo logo' m Ho Hm2 Ht).
    cbn [try_except]. f_equal. fold pad.
    replace (pad_pos (paste qr_img pad pos pad) pad) with pos
      by (unfold pad_pos; rewrite Sw, Sh; reflexivity).
    apply paste_opaque_twice.
    intros x y Hin. now apply make_pad_opaque.
Qed.

(** The opaque 2x2 logo on the 29x29 image. *)
Lemma add_logo_idempotent_opaque_witness :
  (once <- add_logo Demo.lib Demo.dark (lit "logo.png") ;;
   add_logo Demo.lib once (lit "logo.png"))
  = add_logo Demo.lib Demo.dark (lit "logo.png").
Proof.
  apply (add_logo_idempotent_opaque Demo.lib Demo.dark (lit "logo.png")).
  intros logo m logo' Ho Hm Ht.
  change (Return Demo.red_logo = Return logo) in Ho. inversion Ho; subst logo.
  change (max_dim_of 29 29 = Return m) in Hm.
  rewrite (max_dim_of_value 29 29) in Hm by (simpl; lia).
  inversion Hm; subst m.
  change (Return Demo.red_logo = Return logo') in Ht. inversion Ht; subst logo'.
  split.
  - unfold well_formed, Demo.red_logo, Image_new. simpl.
    split_all; try lia; try reflexivity.
    repeat (apply Forall_cons; [unfold byte_pixel; simpl; lia|]). apply Forall_nil.
  - unfold crisp, Demo.red_logo, Image_new. simpl.
    repeat (apply Forall_cons; [right; reflexivity|]). apply Forall_nil.
Defined.

(** C7, as stated, fails: on the 29x29 black image with the 1x1 logo of
    alpha 128, the pixel under the logo is (95, 95, 95, 207) after one
    [add_logo] and (119, 119, 119, 195) after a second one: the half
    transparent pad is blended in again. *)
Lemma add_logo_not_idempotent :
  (once <- add_logo Demo.lib Demo.dark (lit "faint.png") ;;
   add_logo Demo.lib once (lit "faint.png"))
  <> add_logo Demo.lib Demo.dark (lit "faint.png").
Proof.
  intros H.
  apply (f_equal (fun r => match r with
                           | Return im => getpixel im 14 14
                           | Raise _ => (0, 0, 0, 0)
                           end)) in H.
  vm_compute in H. discriminate H.
Qed.

(** ** The examples of the specification, evaluated on [Demo.lib] *)

(** Three items, the second one empty: two files, three [progress]
    signals, [finished(2, 1)]. *)
Example three_items_one_empty :
  success (run Demo.lib (Demo.worker [lit "a"; lit ""; lit "c"])) = 2%nat
  /\ failed (run Demo.lib (Demo.worker [lit "a"; lit ""; lit "c"])) = 1%nat
  /\ map is_progress (emitted (run Demo.lib (Demo.worker [lit "a"; lit ""; lit "c"])))
     = [false; true; false; true; false; true; false]
  /\ last (emitted (run Demo.lib (Demo.worker [lit "a"; lit ""; lit "c"]))) (finished 0 0)
     = finished 2 1.
Proof. vm_compute. auto. Qed.

(** Five items, [stop()] after the second: the third step of the worker
    emits [finished(2, 0)], three items stay pending, two files were
    written. *)
Example stop_after_two_of_five :
  returned Demo.stopped_after_two = true
  /\ pending Demo.stopped_after_two = [lit "c"; lit "d"; lit "e"]
  /\ map is_file_write (emitted Demo.stopped_after_two)
     = [true; false; true; false; false]
  /\ last (emitted Demo.stopped_after_two) (finished 0 0) = finished 2 0.
Proof. vm_compute. auto. Qed.

(** The half transparent logo: the pixel under it after one and after two
    applications of [add_logo]. *)
Example faint_logo_twice :
  (once <- add_logo Demo.lib Demo.dark (lit "faint.png") ;; Return (getpixel once 14 14))
  = Return (95, 95, 95, 207)
  /\ (once <- add_logo Demo.lib Demo.dark (lit "faint.png") ;;
      twice <- add_logo Demo.lib once (lit "faint.png") ;;
      Return (getpixel twice 14 14))
     = Return (119, 119, 119, 195).
Proof. split; vm_compute; reflexivity. Qed.

(** An unreadable logo file leaves the image as it is. *)
Example unreadable_logo :
  add_logo Demo.lib Demo.cross (lit "notes.txt") = Return Demo.cross.
Proof. reflexivity. Qed.

(* ================================================================== *)
(** * Further properties of the code *)

(** ** [strip], [splitlines] *)

Lemma lstrip_fixed (c : N) (s : str) : isspace c = false -> lstrip (c :: s) = c :: s.
Proof. intros H. simpl. now rewrite H. Qed.

Lemma lstrip_head (s : str) (c : N) (r : str) : lstrip s = c :: r -> isspace c = false.
Proof.
  induction s as [|a s IH]; simpl; [discriminate|].
  destruct (isspace a) eqn:Ha; [exact IH|].
  intros H. inversion H; subst. exact Ha.
Qed.

Lemma lstrip_idempotent (s : str) : lstrip (lstrip s) = lstrip s.
Proof.
  destruct (lstrip s) as [|c r] eqn:E; [reflexivity|].
  apply lstrip_fixed. now apply (lstrip_head s c r).
Qed.

Lemma lstrip_keeps_last (u : str) (c : N) :
  isspace c = false -> exists w, lstrip (u ++ [c]) = w ++ [c].
Proof.
  intros Hc. induction u as [|a u IH]; simpl.
  - rewrite Hc. now exists [].
  - destruct (isspace a); [exact IH|]. now exists (a :: u).
Qed.



(** What [strip] returns has no white space at either end. *)
Lemma strip_trimmed (s : str) : trimmed (strip s).
Proof.
  unfold trimmed, strip, rstrip. rewrite rev_involutive. split.
  - destruct (lstrip s) as [|c r] eqn:E; [reflexivity|].
    pose proof (lstrip_head s c r E) as Hc.
    change (rev (c :: r)) with (rev r ++ [c]).
    destruct (lstrip_keeps_last (rev r) c Hc) as [w Hw]. rewrite Hw.
    rewrite rev_app_distr. simpl. now rewrite Hc.
  - apply lstrip_idempotent.
Qed.

Lemma trimmed_strip (s : str) : trimmed s -> strip s = s.
Proof.
  intros [H1 H2]. unfold strip, rstrip. rewrite H1, H2. apply rev_involutive.
Qed.

Lemma trimmed_not_blank (s : str) : trimmed s -> s <> [] -> ~ blank s.
Proof.
  intros [H1 _] Hne Hb. apply lstrip_nil in Hb. congruence.
Qed.



(** ** [_batch_start]: the items it hands to the worker *)



(** ** [_do_generate_preview]: the content it hands to [generate] *)

(** X2. The preview generates nothing exactly when the editor's text is
    blank. Otherwise the content it sets is the stripped text, which is not
    blank and is its own [strip]: whatever the other fields and the
    libraries, the [generate] of the preview passes the content check. *)
Theorem preview_content_checked (text : str) :
  match preview_content text with
  | None => blank text
  | Some content =>
      content = strip text /\ ~ blank content /\ strip content = content
      /\ (forall L config0 auto_opt quiet transparent,
            generate L (preview_config config0 content auto_opt quiet transparent)
            = generate_checked L (preview_config config0 content auto_opt quiet transparent))
  end.
Proof.
  unfold preview_content. destruct (strip text) as [|c r] eqn:E; cbn [truthy negb].
  - now apply strip_nil.
  - assert (Ht : trimmed (c :: r)) by (rewrite <- E; apply strip_trimmed).
    assert (Hb : ~ blank (c :: r)) by (apply trimmed_not_blank; [exact Ht|discriminate]).
    split_all; auto.
    + now apply trimmed_strip.
    + intros. now apply generate_not_blank.
Qed.

(** ** Presets.website *)

Lemma startswith_app (t s : str) : startswith (t ++ s) t = true.
Proof.
  unfold startswith. apply str_eqb_eq.
  rewrite firstn_app, Nat.sub_diag, firstn_all. simpl. apply app_nil_r.
Qed.

(** X3. [website] raises on an empty URL. Otherwise it returns a text that
    starts with "http://" or "https://": the URL itself when it already
    starts with one of the two (in lower case: the test is case-sensitive),
    and "https://" followed by the URL when it does not. Applying [website]
    to its own result changes nothing. *)
Theorem website_adds_scheme_once (url : str) :
  (url = [] -> website url = Raise (ValueError (lit "URL is required")))
  /\ (url <> [] ->
        exists r,
          website url = Return r
          /\ (startswith r (lit "http://") = true \/ startswith r (lit "https://") = true)
          /\ (startswith url (lit "http://") = true \/ startswith url (lit "https://") = true
              -> r = url)
          /\ (startswith url (lit "http://") = false /\ startswith url (lit "https://") = false
              -> r = lit "https://" ++ url)
          /\ website r = Return r)
  /\ website (lit "HTTP://example.com") = Return (lit "https://HTTP://example.com").
Proof.
  split; [intros ->; reflexivity|]. split; [|reflexivity].
  intros Hne. unfold website. destruct url as [|c url]; [congruence|].
  cbn [truthy negb].
  destruct (startswith (c :: url) (lit "http://")) eqn:E1;
    destruct (startswith (c :: url) (lit "https://")) eqn:E2; cbn [orb negb].
  1-3: exists (c :: url); rewrite E1, E2; cbn [orb negb truthy];
       split_all; auto; intros [? ?]; discriminate.
  exists (lit "https://" ++ c :: url).
  assert (S : startswith (lit "https://" ++ c :: url) (lit "https://") = true)
    by apply startswith_app.
  split_all; auto.
  intros [?|?]; discriminate.
Qed.

(** ** Presets.phone and Presets.sms *)

Section NumberProperties.
Variable re_digit : N -> bool.


Lemma clean_number_In (number : str) (c : N) :
  In c (clean_number re_digit number)
  <-> In c number /\ (re_digit c = true \/ c = 43%N).
Proof.
  unfold clean_number. rewrite filter_In, orb_true_iff, N.eqb_eq. reflexivity.
Qed.





End NumberProperties.

(** ** [urllib.parse.quote]: what it can produce *)

Lemma hex_digit_safe (n : N) : (n < 16)%N -> always_safe (hex_digit n) = true.
Proof.
  intros H. unfold hex_digit, always_safe.
  destruct (N.ltb_spec n 10) as [Lt|Ge].
  - assert (E : ((48 <=? 48 + n) && (48 + n <=? 57))%N = true)
      by (apply andb_true_iff; split; apply N.leb_le; lia).
    rewrite E, !orb_true_r. reflexivity.
  - assert (E : ((65 <=? 55 + n) && (55 + n <=? 90))%N = true)
      by (apply andb_true_iff; split; apply N.leb_le; lia).
    rewrite E. reflexivity.
Qed.

Lemma Return_inj {A} (a b : A) : Return a = Return b -> a = b.
Proof. intros H. now injection H. Qed.

Lemma utf8_bytes (c : N) (bs : list N) :
  utf8 c = Return bs -> Forall (fun b => (b < 256)%N) bs.
Proof.
  unfold utf8.
  destruct (N.ltb_spec c 128); [intros E; apply Return_inj in E; subst bs; repeat (apply Forall_cons; [lia|]); apply Forall_nil|].
  destruct (N.ltb_spec c 2048).
  { intros E; apply Return_inj in E; subst bs.
    assert (c / 64 < 32)%N by (apply N.Div0.div_lt_upper_bound; lia).
    assert (c mod 64 < 64)%N by (apply N.mod_lt; lia).
    repeat (apply Forall_cons; [lia|]); apply Forall_nil. }
  destruct ((55296 <=? c) && (c <=? 57343))%N; [discriminate|].
  destruct (N.ltb_spec c 65536).
  { intros E; apply Return_inj in E; subst bs.
    assert (c / 4096 < 16)%N by (apply N.Div0.div_lt_upper_bound; lia).
    assert ((c / 64) mod 64 < 64)%N by (apply N.mod_lt; lia).
    assert (c mod 64 < 64)%N by (apply N.mod_lt; lia).
    repeat (apply Forall_cons; [lia|]); apply Forall_nil. }
  destruct (N.ltb_spec c 1114112); [|discriminate].
  intros E; apply Return_inj in E; subst bs.
  assert (c / 262144 < 5)%N by (apply N.Div0.div_lt_upper_bound; lia).
  assert ((c / 4096) mod 64 < 64)%N by (apply N.mod_lt; lia).
  assert ((c / 64) mod 64 < 64)%N by (apply N.mod_lt; lia).
  assert (c mod 64 < 64)%N by (apply N.mod_lt; lia).
  repeat (apply Forall_cons; [lia|]); apply Forall_nil.
Qed.

Lemma encode_bytes (s : str) (bs : list N) :
  encode s = Return bs -> Forall (fun b => (b < 256)%N) bs.
Proof.
  revert bs. induction s as [|c s IH]; intros bs; simpl.
  - intros H; inversion H; constructor.
  - destruct (utf8 c) as [b|e] eqn:Eu; cbn [bind]; [|discriminate].
    destruct (encode s) as [r|e]; cbn [bind]; [|discriminate].
    intros H; inversion H; subst. apply Forall_app. split.
    + now apply (utf8_bytes c).
    + now apply IH.
Qed.

Lemma quote_from_bytes_chars (bs : list N) :
  Forall (fun b => (b < 256)%N) bs ->
  Forall (fun c => url_char c = true) (quote_from_bytes bs).
Proof.
  unfold quote_from_bytes. induction 1 as [|b bs Hb _ IH]; simpl; [constructor|].
  apply Forall_app. split; [|exact IH].
  destruct (always_safe b || (b =? 47)%N) eqn:E.
  - constructor; [|constructor]. unfold url_char. now rewrite E.
  - unfold percent, url_char.
    assert (b / 16 < 16)%N by (apply N.Div0.div_lt_upper_bound; lia).
    assert (b mod 16 < 16)%N by (apply N.mod_lt; lia).
    repeat constructor; rewrite ?hex_digit_safe by assumption; reflexivity.
Qed.

(** Whatever [quote] returns consists of unreserved characters, '/' and
    '%'. *)
Lemma quote_chars (s q : str) :
  quote s = Return q -> Forall (fun c => url_char c = true) q.
Proof.
  unfold quote. destruct s as [|c s]; [intros H; inversion H; constructor|].
  destruct (encode (c :: s)) as [bs|e] eqn:E; cbn [bind]; [|discriminate].
  intros H; inversion H; subst. apply quote_from_bytes_chars.
  now apply (encode_bytes (c :: s)).
Qed.

Lemma quote_nonempty (s q : str) : s <> [] -> quote s = Return q -> q <> [].
Proof.
  destruct s as [|c s]; [congruence|]. intros _. unfold quote. simpl.
  destruct (utf8 c) as [b|e] eqn:Eu; cbn [bind]; [|discriminate].
  destruct (encode s) as [r|e]; cbn [bind]; [|discriminate].
  intros H; inversion H; subst. unfold quote_from_bytes.
  assert (Hb : b <> []).
  { unfold utf8 in Eu.
    repeat match type of Eu with
           | (if ?x then _ else _) = _ => destruct x
           end; inversion Eu; discriminate. }
  destruct b as [|b0 b]; [congruence|]. simpl.
  destruct (always_safe b0 || (b0 =? 47)%N); discriminate.
Qed.

Lemma count_char_app (c : N) (a b : str) :
  count_char c (a ++ b) = (count_char c a + count_char c b)%nat.
Proof. apply count_occ_app. Qed.

Lemma count_char_url (c : N) (q : str) :
  url_char c = false -> Forall (fun x => url_char x = true) q -> count_char c q = 0%nat.
Proof.
  intros Hc Hq. unfold count_char. apply count_occ_not_In.
  intros Hin. rewrite Forall_forall in Hq. specialize (Hq c Hin). congruence.
Qed.



(** ** Presets.email *)







(** ** Presets.sms *)

Section SmsProperties.
Variable re_digit : N -> bool.

Lemma count_char_clean_number (c : N) (number : str) :
  re_digit c = false -> c <> 43%N ->
  count_char c (clean_number re_digit number) = 0%nat.
Proof.
  intros Hd Hp. unfold count_char. apply count_occ_not_In. intros Hin.
  apply clean_number_In in Hin. destruct Hin as [_ [H|H]]; congruence.
Qed.

(** X6. [sms] raises on an empty number. Otherwise the number is cleaned as
    [phone] cleans it (the same text follows "sms:" and "tel:"); without a
    message nothing else follows; with one, "?body=" and the percent-encoded
    message follow, which is not empty and holds only unreserved characters,
    '/' and '%'. With ASCII digits as digits the result then has exactly one
    '?' and no '&', no '#' and no space: the message cannot add a parameter.
    If the message cannot be encoded, [sms] raises what [quote] raises. *)
Theorem sms_cleans_and_escapes (number message : str) :
  (number = [] ->
     sms re_digit number message = Raise (ValueError (lit "Phone number is required")))
  /\ (number <> [] ->
        exists clean,
          phone re_digit number = Return (lit "tel:" ++ clean)
          /\ sms re_digit number (lit "") = Return (lit "sms:" ++ clean)
          /\ (message = [] -> sms re_digit number message = Return (lit "sms:" ++ clean))
          /\ (forall e, quote message = Raise e -> sms re_digit number message = Raise e)
          /\ (forall q,
                message <> [] -> quote message = Return q ->
                sms re_digit number message
                = Return (lit "sms:" ++ clean ++ lit "?body=" ++ q)
                /\ q <> []
                /\ Forall (fun c => url_char c = true) q
                /\ (ascii_digits re_digit ->
                    count_char 63 (clean ++ lit "?body=" ++ q) = 1%nat
                    /\ count_char 38 (clean ++ lit "?body=" ++ q) = 0%nat
                    /\ count_char 35 (clean ++ lit "?body=" ++ q) = 0%nat
                    /\ count_char 32 (clean ++ lit "?body=" ++ q) = 0%nat))).
Proof.
  split; [intros ->; reflexivity|].
  intros Hne. exists (clean_number re_digit number).
  destruct number as [|n0 number]; [congruence|].
  split_all; try reflexivity.
  - intros ->. reflexivity.
  - intros e He. unfold sms. cbn [truthy negb].
    destruct message; [discriminate He|]. cbn [truthy]. now rewrite He.
  - intros q Hm Hq. pose proof (quote_chars _ _ Hq) as Cq.
    split_all.
    + unfold sms. cbn [truthy negb]. destruct message; [congruence|].
      cbn [truthy]. now rewrite Hq.
    + now apply (quote_nonempty message).
    + exact Cq.
    + intros H. rewrite !count_char_app.
      rewrite !(count_char_url _ q) by (reflexivity || exact Cq).
      rewrite !count_char_clean_number
        by (try discriminate; rewrite H by reflexivity; reflexivity).
      split_all; reflexivity.
Qed.

End SmsProperties.

(** ** Presets.vcard *)

Lemma count_char_optional_line (tag value : str) :
  count_char 10 tag = 0%nat ->
  count_char 10 (optional_line tag value)
  = (if truthy value then 1 + count_char 10 value else 0)%nat.
Proof.
  intros Ht. unfold optional_line. destruct value as [|v value]; [reflexivity|].
  cbn [truthy]. rewrite !count_char_app, Ht. reflexivity.
Qed.

(** X7. [vcard] raises on an empty name. Otherwise the card is
    "BEGIN:VCARD", "VERSION:3.0" and "FN:" with the name, then one line for
    each optional field that is not empty, in the order TEL, EMAIL, ORG,
    TITLE, then "END:VCARD"; an empty field leaves no line, not even an empty
    one. Nothing is escaped: the card has three line breaks, one more for
    each optional field given, and one more for every line break inside a
    field. *)
Theorem vcard_lines (name phone email org title : str) :
  (name = [] ->
     vcard name phone email org title = Raise (ValueError (lit "Name is required")))
  /\ (name <> [] ->
        vcard name phone email org title
        = Return (lit "BEGIN:VCARD" ++ [10%N] ++ lit "VERSION:3.0" ++ [10%N]
                  ++ lit "FN:" ++ name
                  ++ optional_line (lit "TEL:") phone
                  ++ optional_line (lit "EMAIL:") email
                  ++ optional_line (lit "ORG:") org
                  ++ optional_line (lit "TITLE:") title
                  ++ [10%N] ++ lit "END:VCARD")
        /\ exists out,
             vcard name phone email org title = Return out
             /\ count_char 10 out
                = (3 + count_char 10 name
                   + (if truthy phone then 1 + count_char 10 phone else 0)
                   + (if truthy email then 1 + count_char 10 email else 0)
                   + (if truthy org then 1 + count_char 10 org else 0)
                   + (if truthy title then 1 + count_char 10 title else 0))%nat).
Proof.
  split; [intros ->; reflexivity|].
  intros Hne.
  assert (E : vcard name phone email org title
              = Return (lit "BEGIN:VCARD" ++ [10%N] ++ lit "VERSION:3.0" ++ [10%N]
                        ++ lit "FN:" ++ name
                        ++ optional_line (lit "TEL:") phone
                        ++ optional_line (lit "EMAIL:") email
                        ++ optional_line (lit "ORG:") org
                        ++ optional_line (lit "TITLE:") title
                        ++ [10%N] ++ lit "END:VCARD")).
  { unfold vcard, optional_line. destruct name as [|n0 name]; [congruence|].
    cbn [truthy negb]. f_equal.
    destruct phone, email, org, title; cbn [truthy app join];
      repeat rewrite <- app_assoc; reflexivity. }
  split; [exact E|]. eexists. split; [exact E|].
  rewrite !count_char_app, !count_char_optional_line by reflexivity.
  change (count_char 10 (lit "BEGIN:VCARD")) with 0%nat.
  change (count_char 10 (lit "VERSION:3.0")) with 0%nat.
  change (count_char 10 (lit "FN:")) with 0%nat.
  change (count_char 10 (lit "END:VCARD")) with 0%nat.
  change (count_char 10 [10%N]) with 1%nat. lia.
Qed.

(** ** BatchWorker.run: signals, counters and files in every schedule *)

Lemma count_events_app (f : event -> bool) (a b : list event) :
  count_events f (a ++ b) = (count_events f a + count_events f b)%nat.
Proof. unfold count_events. now rewrite filter_app, length_app. Qed.

Section BatchSignals.
Variable L : Lib.
Variable self : BatchWorker.

(** One iteration: an [error] signal exactly when the item fails, with the
    message built from the item and from the exception the body of the [try]
    raised; a success has called [save] once. *)
Lemma iteration_outcome (idx : nat) (item : str) :
  count_events is_error (fst (iteration L self idx item))
  = (if snd (iteration L self idx item) then 0 else 1)%nat
  /\ (snd (iteration L self idx item) = true ->
      count_events is_file_write (fst (iteration L self idx item)) = 1%nat)
  /\ (forall msg,
        In (error msg) (fst (iteration L self idx item)) ->
        exists e,
          snd (process_item L self idx item) = Raise e
          /\ msg = lit "Failed: " ++ prefix 30 item ++ lit "... - " ++ exn_str e).
Proof.
  unfold iteration, process_item.
  destruct (generate L (item_config self item)) as [img|e].
  - destruct (str_format L (naming self) idx (safe L (prefix 20 item))) as [name|e].
    + match goal with
      | |- context [if ?c then save_png _ _ ?p else _] =>
          destruct (if c then save_png L img p else save_jpeg L img p 95) as [u|e]
      end; cbv beta iota zeta delta [fst snd]; cbn [app In]; split_all; try reflexivity.
      * intros msg [F|[F|[]]]; discriminate F.
      * intros msg [F|[F|[F|[]]]]; try discriminate F.
        injection F as <-. exists e. split; reflexivity.
    + cbv beta iota zeta delta [fst snd]. cbn [app In]. split_all; try reflexivity.
      * intros F; discriminate F.
      * intros msg [F|[F|[]]]; try discriminate F.
        injection F as <-. exists e. split; reflexivity.
  - cbv beta iota zeta delta [fst snd]. cbn [app In]. split_all; try reflexivity.
    + intros F; discriminate F.
    + intros msg [F|[F|[]]]; try discriminate F.
      injection F as <-. exists e. split; reflexivity.
Qed.

(** A blank item never reaches [save]. *)
Lemma blank_item_writes_nothing (idx : nat) (item : str) :
  truthy (strip item) = false ->
  count_events is_file_write (fst (iteration L self idx item)) = 0%nat.
Proof.
  intros Hb. unfold iteration, process_item, generate.
  cbn [content item_config]. rewrite Hb. reflexivity.
Qed.

Lemma errors_loop (idx : nat) (l : list str) :
  (count_events is_error (loop_events L self idx l) + loop_successes L self idx l
   = List.length l)%nat.
Proof.
  revert idx. induction l as [|item l IH]; intros idx; [reflexivity|].
  cbn [loop_events loop_successes List.length]. rewrite count_events_app.
  destruct (iteration_outcome idx item) as (He & _).
  rewrite He. specialize (IH (S idx)).
  destruct (snd (iteration L self idx item)); lia.
Qed.

Lemma successes_wrote (idx : nat) (l : list str) :
  (loop_successes L self idx l <= count_events is_file_write (loop_events L self idx l))%nat.
Proof.
  revert idx. induction l as [|item l IH]; intros idx; [reflexivity|].
  cbn [loop_events loop_successes]. rewrite count_events_app.
  destruct (iteration_outcome idx item) as (_ & Hw & _).
  specialize (IH (S idx)).
  destruct (snd (iteration L self idx item)); [rewrite Hw by reflexivity|]; lia.
Qed.

Lemma error_messages_loop (idx : nat) (l : list str) (msg : str) :
  In (error msg) (loop_events L self idx l) ->
  exists k item e,
    nth_error l k = Some item
    /\ snd (process_item L self (idx + k) item) = Raise e
    /\ msg = lit "Failed: " ++ prefix 30 item ++ lit "... - " ++ exn_str e.
Proof.
  revert idx. induction l as [|item l IH]; intros idx; [intros []|].
  cbn [loop_events]. rewrite in_app_iff. intros [H|H].
  - destruct (iteration_outcome idx item) as (_ & _ & Hm).
    destruct (Hm msg H) as (e & Hr & He). exists 0%nat, item, e.
    rewrite Nat.add_0_r. split_all; auto.
  - destruct (IH _ H) as (k & it & e & Hk & Hr & He). exists (S k), it, e.
    replace (idx + S k)%nat with (S idx + k)%nat by lia. split_all; auto.
Qed.

Lemma writes_need_content (idx : nat) (l : list str) :
  (count_events is_file_write (loop_events L self idx l)
   <= List.length (filter (fun item => truthy (strip item)) l))%nat.
Proof.
  revert idx. induction l as [|item l IH]; intros idx; [reflexivity|].
  cbn [loop_events filter]. rewrite count_events_app. specialize (IH (S idx)).
  destruct (truthy (strip item)) eqn:Hb.
  - destruct (iteration_shape L self idx item) as (evs & E & _ & _ & Hw).
    rewrite E, count_events_app. unfold count_events in *. cbn [List.length filter is_file_write].
    cbn [List.length]. lia.
  - rewrite (blank_item_writes_nothing idx item Hb). lia.
Qed.

Lemma filter_length_app_le {A} (f : A -> bool) (a b : list A) :
  (List.length (filter f a) <= List.length (filter f (a ++ b)))%nat.
Proof. rewrite filter_app, length_app. lia. Qed.

(** X8. In every schedule of the worker and its caller, at every moment:
    the [error] signals emitted so far are as many as the counter [failed]
    says, and each one comes from an item already taken whose [try] body --
    [generate], the file name, [save] -- raised: it reads "Failed: ", the
    first 30 characters of that item, "... - " and the text of the very
    exception the body raised for it; every item counted in [success] has
    called [save], so the calls of [save] are at least [success] and at most
    the number of items taken; [finished] has been emitted exactly when
    [run] has returned, and then once. *)
Theorem signals_match_counters (schedule : list action) :
  let s := exec L self schedule (start self) in
  count_events is_error (emitted s) = failed s
  /\ (success s <= count_events is_file_write (emitted s))%nat
  /\ (count_events is_file_write (emitted s) <= taken self s)%nat
  /\ count_events is_finished (emitted s) = (if returned s then 1 else 0)%nat
  /\ (forall msg,
        In (error msg) (emitted s) ->
        exists i item e,
          nth_error (items self) i = Some item
          /\ (i < taken self s)%nat
          /\ snd (process_item L self (S i) item) = Raise e
          /\ msg = lit "Failed: " ++ prefix 30 item ++ lit "... - " ++ exn_str e).
Proof.
  intros s.
  assert (Hc : consistent L self s) by apply exec_consistent, start_consistent.
  destruct (consistent_counts L self s Hc) as (_ & _ & _ & Hw & _).
  destruct Hc as (done & Hi & _ & Hs & Hsum & He).
  assert (Ht : taken self s = List.length done).
  { unfold taken. rewrite Hi, length_app. lia. }
  assert (Hfin : forall f, count_events f (if returned s then [finished (success s) (failed s)] else [])
                           = if returned s then count_events f [finished (success s) (failed s)] else 0%nat)
    by (intros f; destruct (returned s); reflexivity).
  split_all.
  - rewrite He, count_events_app, Hfin.
    pose proof (errors_loop 1 done) as E. rewrite <- Hs in E.
    destruct (returned s); cbn [count_events filter is_error List.length]; lia.
  - rewrite He, count_events_app. pose proof (successes_wrote 1 done) as E.
    rewrite <- Hs in E. lia.
  - exact Hw.
  - rewrite He, count_events_app, Hfin. unfold count_events at 1.
    rewrite filter_finished_loop. destruct (returned s); reflexivity.
  - intros msg Hin. rewrite He, in_app_iff in Hin. destruct Hin as [Hin|Hin].
    + destruct (error_messages_loop 1 done msg Hin) as (k & item & e & Hk & Hr & Hmsg).
      assert (Hlt : (k < List.length done)%nat)
        by (apply nth_error_Some; congruence).
      exists k, item, e. split_all; auto.
      * rewrite Hi, nth_error_app1 by exact Hlt. exact Hk.
      * lia.
    + destruct (returned s); [destruct Hin as [F|[]]; discriminate F|destruct Hin].
Qed.

(** X9. In every schedule, the calls of [save] are at most as many as the
    items of the batch that are not blank: a blank item (empty or whitespace
    only) is stopped by the content check of [generate] before a file name
    is even built. When [run] has returned with nothing pending, [failed]
    is at least the number of blank items. *)
Theorem blank_items_write_nothing (schedule : list action) :
  let s := exec L self schedule (start self) in
  (count_events is_file_write (emitted s)
   <= List.length (filter (fun item => truthy (strip item)) (items self)))%nat
  /\ (forall idx item,
        blank item ->
        fst (iteration L self idx item)
        = [error (lit "Failed: " ++ prefix 30 item ++ lit "... - "
                  ++ lit "Content cannot be empty");
           progress idx (List.length (items self)) (prefix 40 item)])
  /\ (pending s = [] ->
      (List.length (filter (fun item => negb (truthy (strip item))) (items self))
       <= failed s)%nat).
Proof.
  intros s.
  assert (Hc : consistent L self s) by apply exec_consistent, start_consistent.
  destruct Hc as (done & Hi & _ & Hs & Hsum & He).
  assert (Hfw : count_events is_file_write (emitted s)
                = count_events is_file_write (loop_events L self 1 done)).
  { rewrite He, count_events_app. destruct (returned s); cbn; lia. }
  pose proof (writes_need_content 1 done) as W.
  split_all.
  - rewrite Hfw, Hi. pose proof (filter_length_app_le (fun item => truthy (strip item)) done (pending s)).
    lia.
  - intros idx item Hb. unfold iteration, process_item.
    rewrite (generate_blank L (item_config self item) Hb). reflexivity.
  - intros Hp. rewrite Hp, app_nil_r in Hi. rewrite Hi.
    pose proof (successes_wrote 1 done) as S1. rewrite <- Hs in S1.
    pose proof (filter_length (fun item => truthy (strip item)) done) as F.
    cbv beta in F. lia.
Qed.

Lemma firstn_app_length {A} (a b : list A) : firstn (List.length a) (a ++ b) = a.
Proof. rewrite firstn_app, Nat.sub_diag, firstn_all. cbn [firstn]. apply app_nil_r. Qed.

(** X10. In every schedule, at every moment, the [progress] signals emitted
    so far are those of the items taken so far, in the order of the batch:
    the i-th is [progress(i, total, item[:40])] for the i-th item, with
    [total] the size of the whole batch; and the items still pending are the
    rest of the batch. *)
Theorem progress_follows_the_items (schedule : list action) :
  let s := exec L self schedule (start self) in
  filter is_progress (emitted s)
  = progress_events (List.length (items self)) 1 (firstn (taken self s) (items self))
  /\ pending s = skipn (taken self s) (items self)
  /\ next_idx s = S (taken self s)
  /\ (forall i item,
        nth_error (items self) i = Some item ->
        (i < taken self s)%nat ->
        nth_error (filter is_progress (emitted s)) i
        = Some (progress (S i) (List.length (items self)) (prefix 40 item))).
Proof.
  intros s.
  assert (Hc : consistent L self s) by apply exec_consistent, start_consistent.
  destruct Hc as (done & Hi & Hn & _ & _ & He).
  assert (Ht : taken self s = List.length done).
  { unfold taken. rewrite Hi, length_app. lia. }
  assert (Hp : filter is_progress (emitted s)
               = progress_events (List.length (items self)) 1 done).
  { rewrite He, filter_app, filter_progress_loop.
    destruct (returned s); cbn [filter is_progress]; apply app_nil_r. }
  assert (Hnth : forall total idx l i item,
             nth_error l i = Some item ->
             nth_error (progress_events total idx l) i
             = Some (progress (idx + i) total (prefix 40 item))).
  { intros total idx l. revert idx. induction l as [|x l IH]; intros idx [|i] item H;
      try discriminate H; cbn [progress_events nth_error] in *.
    - injection H as ->. now rewrite Nat.add_0_r.
    - rewrite (IH (S idx) i item H). do 2 f_equal. lia. }
  split_all.
  - rewrite Hp, Ht, Hi. now rewrite firstn_app_length.
  - rewrite Ht, Hi. now rewrite skipn_app, Nat.sub_diag, skipn_all.
  - rewrite Ht. exact Hn.
  - intros i item Hitem Hlt. rewrite Hp.
    apply (Hnth _ 1%nat). rewrite Hi, nth_error_app1 in Hitem by lia. exact Hitem.
Qed.

End BatchSignals.

(** ** BatchWorker.run: the file name *)

(** X11. The part of a file name that comes from the item, [re.sub] applied
    to its first 20 characters: it is as long as what it was made from, at
    most 20 characters; a character of [\w] and '-' stay where they are and
    every other one becomes '_', so that nothing but those is left -- no
    path separator and no dot unless [\w] had them; and the substitution
    changes nothing when it is applied again. *)
Theorem safe_file_name_part (L : Lib) (text : str) :
  List.length (safe L text) = List.length text
  /\ List.length (safe L (prefix 20 text)) = Nat.min 20 (List.length text)
  /\ (forall i c,
        nth_error text i = Some c ->
        nth_error (safe L text) i
        = Some (if re_word L c || (c =? 45)%N then c else 95%N))
  /\ (forall c, In c (safe L text) -> re_word L c = true \/ c = 45%N \/ c = 95%N)
  /\ safe L (safe L text) = safe L text.
Proof.
  unfold safe, prefix. split_all.
  - apply length_map.
  - rewrite length_map. apply length_firstn.
  - intros i c H. rewrite nth_error_map, H. reflexivity.
  - intros c Hin. apply in_map_iff in Hin. destruct Hin as (c0 & <- & _).
    destruct (re_word L c0) eqn:W; cbn [orb]; [now left|].
    destruct (N.eqb_spec c0 45); auto.
  - rewrite map_map. apply map_ext. intros c.
    destruct (re_word L c || (c =? 45)%N) eqn:E; [now rewrite E|].
    destruct (re_word L 95 || (95 =? 45)%N); reflexivity.
Qed.

(** ** generate: the level with a logo, failures, the size of the result *)

(** X12. With a logo that exists, the label of the error-correction level
    has no influence at all: whatever it is -- one of the four, or anything
    else -- the encoder is handed level Q (25%), and [generate] gives what it
    gives for the label "Q - 25% (High)". *)
Theorem logo_fixes_the_level (L : Lib) (config : QRConfig) (label : str) :
  has_logo L config = true ->
  effective_ecc L (with_error_correction config label) = ERROR_CORRECT_Q
  /\ tier_percent (effective_ecc L (with_error_correction config label)) = 25
  /\ render L (with_error_correction config label)
     = render L (with_error_correction config (lit "Q - 25% (High)"))
  /\ generate L (with_error_correction config label)
     = generate L (with_error_correction config (lit "Q - 25% (High)")).
Proof.
  intros H.
  assert (E : forall l, effective_ecc L (with_error_correction config l) = ERROR_CORRECT_Q).
  { intros l. apply effective_ecc_with_logo_is_Q. exact H. }
  assert (R : render L (with_error_correction config label)
              = render L (with_error_correction config (lit "Q - 25% (High)"))).
  { unfold render. rewrite !E. reflexivity. }
  split_all.
  - apply E.
  - rewrite E. reflexivity.
  - exact R.
  - unfold generate, generate_checked. rewrite R. reflexivity.
Qed.

Lemma logo_fixes_the_level_witness :
  effective_ecc Demo.lib (with_error_correction Demo.highest_with_logo (lit "L - 7% (Fast)"))
  = ERROR_CORRECT_Q
  /\ generate Demo.lib (with_error_correction Demo.highest_with_logo (lit "L - 7% (Fast)"))
     = generate Demo.lib (with_error_correction Demo.highest_with_logo (lit "Q - 25% (High)")).
Proof.
  destruct (logo_fixes_the_level Demo.lib Demo.highest_with_logo (lit "L - 7% (Fast)"))
    as (H1 & _ & _ & H2); [reflexivity|].
  split; [exact H1|exact H2].
Defined.

Lemma add_logo_size (L : Lib) (qr_img out : image) (p : str) :
  add_logo L qr_img p = Return out ->
  size_w out = size_w qr_img /\ size_h out = size_h qr_img
  /\ List.length (getdata out) = List.length (getdata qr_img).
Proof.
  intros H.
  destruct (add_logo_cases L qr_img p) as [(e & _ & Hr)|(r & Hr & Hret)].
  - rewrite Hr in H. apply Return_inj in H. subst out. auto.
  - rewrite Hret in H. apply Return_inj in H. subst out.
    destruct (add_logo_try_inv L qr_img p r Hr) as (logo & m & logo' & _ & _ & _ & ->).
    apply paste_size.
Qed.

Lemma not_blank_truthy (s : str) : ~ blank s <-> truthy (strip s) = true.
Proof.
  rewrite <- strip_nil. destruct (strip s); cbn [truthy]; split; congruence.
Qed.

(** X13. [generate] returns an image exactly when the content is not blank,
    the encoder renders it, and -- with a transparent background -- the
    background colour parses. These three conditions are all: that the logo
    can be opened or pasted is not among them (the rendering itself is the
    encoder's, at the level [effective_ecc] hands it). The checks fail in
    this order: blank content first, then the encoder's exception,
    then the colour's. The image returned has the size and the number of
    pixels of the encoder's rendering: neither the transparency nor the logo
    changes them. *)
Theorem generate_returns_iff (L : Lib) (config : QRConfig) :
  ((exists out, generate L config = Return out)
   <-> (~ blank (content config)
        /\ (exists img, render L config = Return img)
        /\ (transparent_bg config = true ->
            exists rgb, ImageColor_getrgb L (bg_color config) = Return rgb)))
  /\ (forall e, ~ blank (content config) -> render L config = Raise e ->
        generate L config = Raise e)
  /\ (forall img e,
        ~ blank (content config) -> render L config = Return img ->
        transparent_bg config = true ->
        ImageColor_getrgb L (bg_color config) = Raise e ->
        generate L config = Raise e)
  /\ (forall out,
        generate L config = Return out ->
        exists img,
          render L config = Return img
          /\ size_w out = size_w img /\ size_h out = size_h img
          /\ List.length (getdata out) = List.length (getdata img)).
Proof.
  assert (Hsize : forall out,
             generate L config = Return out ->
             ~ blank (content config)
             /\ exists img,
                  render L config = Return img
                  /\ (transparent_bg config = true ->
                      exists rgb, ImageColor_getrgb L (bg_color config) = Return rgb)
                  /\ size_w out = size_w img /\ size_h out = size_h img
                  /\ List.length (getdata out) = List.length (getdata img)).
  { intros out H. unfold generate in H.
    destruct (truthy (strip (content config))) eqn:Hc; cbn [negb] in H; [|discriminate H].
    split; [now apply not_blank_truthy|].
    unfold generate_checked in H.
    destruct (render L config) as [img|e]; cbn [bind] in H; [|discriminate H].
    exists img. split; [reflexivity|].
    unfold apply_transparency in H.
    destruct (transparent_bg config).
    - destruct (ImageColor_getrgb L (bg_color config)) as [rgb|e]; cbn [bind] in H;
        [|discriminate H].
      split; [intros _; now exists rgb|].
      assert (S : exists mid, apply_logo L config mid = Return out
                              /\ size_w mid = size_w img /\ size_h mid = size_h img
                              /\ List.length (getdata mid) = List.length (getdata img)).
      { exists (strip_background img rgb). split; [exact H|].
        unfold strip_background, putdata. cbn [size_w size_h getdata].
        rewrite length_map. auto. }
      destruct S as (mid & Hl & <- & <- & <-). unfold apply_logo in Hl.
      destruct (has_logo L config); [now apply (add_logo_size L mid out (logo_path config))|].
      apply Return_inj in Hl. subst out. auto.
    - cbn [bind] in H. split; [intros F; discriminate F|].
      unfold apply_logo in H.
      destruct (has_logo L config); [now apply (add_logo_size L img out (logo_path config))|].
      apply Return_inj in H. subst out. auto. }
  split_all.
  - split.
    + intros [out H]. destruct (Hsize out H) as (Hb & img & Hr & Ht & _).
      split_all; [exact Hb|now exists img|exact Ht].
    + intros (Hb & [img Hr] & Ht).
      rewrite (generate_not_blank L config Hb). unfold generate_checked.
      rewrite Hr. cbn [bind]. unfold apply_transparency.
      destruct (transparent_bg config).
      * destruct (Ht eq_refl) as [rgb ->]. cbn [bind]. apply apply_logo_returns.
      * cbn [bind]. apply apply_logo_returns.
  - intros e Hb Hr. rewrite (generate_not_blank L config Hb). unfold generate_checked.
    now rewrite Hr.
  - intros img e Hb Hr Ht He. rewrite (generate_not_blank L config Hb).
    unfold generate_checked, apply_transparency. rewrite Hr, Ht. cbn [bind].
    now rewrite He.
  - intros out H. destruct (Hsize out H) as (_ & img & Hr & _ & S).
    exists img. split; [exact Hr|exact S].
Qed.

(** ** generate: keying the background out, again *)

(** X14. Keying out a background colour a second time changes nothing more,
    whatever the colour is, white included. After the step every pixel is
    transparent white or differs from the background colour in red, green or
    blue; pixel by pixel, the result is the pixel it was or transparent
    white. *)
Theorem strip_background_idempotent (img : image) (bg_rgb : Z * Z * Z) :
  strip_background (strip_background img bg_rgb) bg_rgb = strip_background img bg_rgb
  /\ Forall (fun p => p = transparent_white \/ rgb_of p <> bg_rgb)
            (getdata (strip_background img bg_rgb))
  /\ Forall2 (fun p q => q = p \/ q = transparent_white)
             (getdata img) (getdata (strip_background img bg_rgb)).
Proof.
  unfold strip_background, putdata. cbn [size_w size_h getdata]. split_all.
  - f_equal. rewrite map_map. apply map_ext. intros p.
    destruct (matches_bg bg_rgb p) eqn:E; [|now rewrite E].
    destruct (matches_bg bg_rgb (255, 255, 255, 0)); reflexivity.
  - apply Forall_forall. intros q Hin. apply in_map_iff in Hin.
    destruct Hin as (p & <- & _).
    destruct (matches_bg bg_rgb p) eqn:E; [now left|right].
    intros F. apply matches_bg_iff in F. congruence.
  - induction (getdata img) as [|p l IH]; cbn [map]; constructor; [|exact IH].
    destruct (matches_bg bg_rgb p); [now right|now left].
Qed.

(** ** add_logo: what the paste leaves and what it covers *)

Lemma in_image_bounds (im : image) (x y : Z) :
  in_image im x y = true <-> (0 <= x < size_w im /\ 0 <= y < size_h im).
Proof.
  unfold in_image. rewrite !andb_true_iff, !Z.leb_le, !Z.ltb_lt. lia.
Qed.

(** A box of side [a] centred by [(w - a) // 2] lies within the box of a
    larger side [s] centred the same way. *)
Lemma centred_box_within (w a s : Z) :
  a <= s ->
  (w - s) / 2 <= (w - a) / 2 /\ (w - a) / 2 + a <= (w - s) / 2 + s.
Proof. intros H. Z.div_mod_to_equations. lia. Qed.

(** Outside the centred square that bounds the pad, [add_logo] leaves every
    pixel as it was. *)
Lemma add_logo_outside_centre (L : Lib) (qr_img out : image) (p : str) :
  resize_fits L ->
  0 <= size_w qr_img < 2 ^ 31 ->
  0 <= size_h qr_img < 2 ^ 31 ->
  List.length (getdata qr_img) = Z.to_nat (size_w qr_img * size_h qr_img) ->
  add_logo L qr_img p = Return out ->
  forall x y,
    in_image qr_img x y = true ->
    in_centre (size_w qr_img) (size_h qr_img)
              (22 * Z.min (size_w qr_img) (size_h qr_img) / 100 + 8) x y = false ->
    getpixel out x y = getpixel qr_img x y.
Proof.
  intros Hfit Hw Hh Hlen Hout x y Hin Hcentre.
  destruct (add_logo_cases L qr_img p) as [(e & _ & Hr)|(r & Hr & Hret)].
  - rewrite Hr in Hout. apply Return_inj in Hout. now subst out.
  - rewrite Hret in Hout. apply Return_inj in Hout. subst out.
    destruct (add_logo_try_inv L qr_img p r Hr) as (logo & m & logo' & _ & Hm & Ht & ->).
    rewrite (max_dim_of_value (size_w qr_img) (size_h qr_img)) in Hm by lia.
    apply Return_inj in Hm. subst m.
    destruct (thumbnail_fits L logo logo' _ Hfit Ht) as [Fw Fh].
    unfold pad_pos. rewrite (getpixel_paste qr_img _ _ _ _ x y Hlen Hin).
    match goal with |- (if ?c then _ else _) = _ => destruct c eqn:E end; [|reflexivity].
    exfalso. apply in_image_bounds in E.
    destruct (make_pad_size logo') as [Pw Ph]. rewrite Pw, Ph in E.
    set (s := 22 * Z.min (size_w qr_img) (size_h qr_img) / 100 + 8) in *.
    pose proof (centred_box_within (size_w qr_img) (size_w logo' + 8) s ltac:(unfold s; lia)).
    pose proof (centred_box_within (size_h qr_img) (size_h logo' + 8) s ltac:(unfold s; lia)).
    assert (C : in_centre (size_w qr_img) (size_h qr_img) s x y = true).
    { unfold in_centre. rewrite !andb_true_iff, !Z.leb_le, !Z.ltb_lt. lia. }
    congruence.
Qed.

(** X15. For a QR image whose sides are below 2^31 and whose data fill its
    size, and a library whose thumbnails fit: [add_logo] returns an image of
    the same size with as many pixels, in which every pixel outside the
    centred square of side floor(22 * min(w, h) / 100) + 8 is the pixel of
    the QR image -- whatever the logo file holds, and also when it cannot be
    read. *)
Theorem add_logo_keeps_the_frame (L : Lib) (qr_img : image) (p : str) :
  resize_fits L ->
  0 <= size_w qr_img < 2 ^ 31 ->
  0 <= size_h qr_img < 2 ^ 31 ->
  List.length (getdata qr_img) = Z.to_nat (size_w qr_img * size_h qr_img) ->
  exists out,
    add_logo L qr_img p = Return out
    /\ size_w out = size_w qr_img
    /\ size_h out = size_h qr_img
    /\ List.length (getdata out) = List.length (getdata qr_img)
    /\ (forall x y,
          in_image qr_img x y = true ->
          in_centre (size_w qr_img) (size_h qr_img)
                    (22 * Z.min (size_w qr_img) (size_h qr_img) / 100 + 8) x y = false ->
          getpixel out x y = getpixel qr_img x y).
Proof.
  intros Hfit Hw Hh Hlen.
  destruct (add_logo_returns L qr_img p) as [out Hout].
  exists out. destruct (add_logo_size L qr_img out p Hout) as (Sw & Sh & Sl).
  split_all; auto.
  apply (add_logo_outside_centre L qr_img out p); assumption.
Qed.

(** On the 29x29 image the square has side 14 and starts at 7: the logo
    wide.png leaves every pixel outside it black. *)
Lemma add_logo_keeps_the_frame_witness :
  exists out,
    add_logo Demo.lib Demo.dark (lit "wide.png") = Return out
    /\ size_w out = 29 /\ size_h out = 29
    /\ getpixel out 6 14 = Demo.black
    /\ getpixel out 14 21 = Demo.black.
Proof.
  destruct (add_logo_keeps_the_frame Demo.lib Demo.dark (lit "wide.png"))
    as (out & E & Sw & Sh & _ & Hpix).
  - apply demo_resize_fits.
  - simpl. lia.
  - simpl. lia.
  - reflexivity.
  - exists out. split_all; [exact E|exact Sw|exact Sh| |].
    + rewrite (Hpix 6 14) by reflexivity. reflexivity.
    + rewrite (Hpix 14 21) by reflexivity. reflexivity.
Defined.

(** X16. For a logo that opens and is pasted as [logo'], on a QR image whose
    data fill its size: at a position of the image inside the box of the pad,
    whatever the QR image had there is gone -- also where it was
    transparent. In the border of the pad the pixel is opaque white; under a
    fully opaque pixel of the logo it is that pixel; under a fully
    transparent pixel of the logo it is opaque white, not the QR code. *)
Theorem logo_replaces_what_it_covers
  (L : Lib) (qr_img : image) (p : str) (logo logo' : image) :
  0 <= size_w qr_img < 2 ^ 31 ->
  0 <= size_h qr_img < 2 ^ 31 ->
  List.length (getdata qr_img) = Z.to_nat (size_w qr_img * size_h qr_img) ->
  Image_open L p = Return logo ->
  thumbnail L logo (22 * Z.min (size_w qr_img) (size_h qr_img) / 100,
                    22 * Z.min (size_w qr_img) (size_h qr_img) / 100) = Return logo' ->
  exists out,
    add_logo L qr_img p = Return out
    /\ forall x y,
         in_image qr_img x y = true ->
         let u := x - (size_w qr_img - (size_w logo' + 8)) / 2 in
         let v := y - (size_h qr_img - (size_h logo' + 8)) / 2 in
         in_image (make_pad logo') u v = true ->
         (in_image logo' (u - 4) (v - 4) = false -> getpixel out x y = opaque_white)
         /\ (in_image logo' (u - 4) (v - 4) = true ->
             byte_pixel (getpixel logo' (u - 4) (v - 4)) ->
             (band_a (getpixel logo' (u - 4) (v - 4)) = 255 ->
              getpixel out x y = getpixel logo' (u - 4) (v - 4))
             /\ (band_a (getpixel logo' (u - 4) (v - 4)) = 0 ->
                 getpixel out x y = opaque_white)).
Proof.
  intros Hw Hh Hlen Hopen Hthumb.
  assert (Hmax := max_dim_of_value (size_w qr_img) (size_h qr_img) ltac:(lia)).
  eexists. split.
  { unfold add_logo.
    rewrite (add_logo_try_steps L qr_img p logo logo' _ Hopen Hmax Hthumb). reflexivity. }
  intros x y Hin u v Hpad.
  assert (Hwhite : byte_pixel opaque_white) by (unfold byte_pixel, opaque_white; simpl; lia).
  unfold pad_pos. destruct (make_pad_size logo') as [Pw Ph]. rewrite Pw, Ph.
  fold u v. rewrite (getpixel_paste qr_img _ _ _ _ x y Hlen Hin).
  fold u v. rewrite Hpad. rewrite (getpixel_make_pad logo' u v Hpad).
  split.
  - intros ->. change (band_a opaque_white) with 255.
    apply blend_pixel_255. exact Hwhite.
  - intros -> Hb. split; intros Ha; rewrite Ha.
    + rewrite (blend_pixel_255 opaque_white) by exact Hb. rewrite Ha.
      apply blend_pixel_255. exact Hb.
    + rewrite (blend_pixel_0 opaque_white) by exact Hwhite.
      change (band_a opaque_white) with 255. apply blend_pixel_255. exact Hwhite.
Qed.

(** The red 2x2 logo on the 29x29 black image: the pad is 10x10 at (9, 9);
    its corner is white and the logo's first pixel is at (13, 13). *)
Lemma logo_replaces_what_it_covers_witness :
  exists out,
    add_logo Demo.lib Demo.dark (lit "logo.png") = Return out
    /\ getpixel out 9 9 = opaque_white
    /\ getpixel out 13 13 = (255, 0, 0, 255).
Proof.
  destruct (logo_replaces_what_it_covers Demo.lib Demo.dark (lit "logo.png")
              Demo.red_logo Demo.red_logo)
    as (out & E & Hpix).
  - simpl. lia.
  - simpl. lia.
  - reflexivity.
  - reflexivity.
  - reflexivity.
  - exists out. split; [exact E|]. split.
    + destruct (Hpix 9 9) as [H _]; [reflexivity|reflexivity|].
      apply H. reflexivity.
    + destruct (Hpix 13 13) as [_ H]; [reflexivity|reflexivity|].
      destruct H as [H _]; [reflexivity|unfold byte_pixel; simpl; lia|].
      rewrite H by reflexivity. reflexivity.
Defined.

(** ** generate: the transparent background, with and without a logo (C2) *)

(** C2, as the code has it. For every configuration with [transparent_bg]
    set (non-blank content, a rendering [img] that is opaque, a background
    colour that parses to [bg_rgb]): the image handed on by the transparency
    step has the size of [img]; at every position, a pixel of [img] whose RGB
    equals [bg_rgb] exactly has become (255, 255, 255, 0), and every other
    pixel is unchanged and fully opaque, so the transparent pixels are
    exactly the matching ones. This image is what [generate] returns when
    there is no logo. With a logo it goes through the logo step: [generate]
    returns an image of the size of [img] which, outside the centred square
    of side floor(22 * min(w, h) / 100) + 8, is that image pixel by pixel;
    inside the square the pad of the logo is pasted over it, keyed pixels
    included. *)
Theorem transparent_background_keying
  (L : Lib) (config : QRConfig) (img : image) (bg_rgb : Z * Z * Z) :
  transparent_bg config = true ->
  ~ blank (content config) ->
  render L config = Return img ->
  opaque img ->
  ImageColor_getrgb L (bg_color config) = Return bg_rgb ->
  generate L config = apply_logo L config (strip_background img bg_rgb)
  /\ (has_logo L config = false ->
        generate L config = Return (strip_background img bg_rgb))
  /\ size_w (strip_background img bg_rgb) = size_w img
  /\ size_h (strip_background img bg_rgb) = size_h img
  /\ List.length (getdata (strip_background img bg_rgb)) = List.length (getdata img)
  /\ (forall i p,
        nth_error (getdata img) i = Some p ->
        (rgb_of p = bg_rgb ->
           nth_error (getdata (strip_background img bg_rgb)) i = Some transparent_white)
        /\ (rgb_of p <> bg_rgb ->
              nth_error (getdata (strip_background img bg_rgb)) i = Some p
              /\ band_a p = 255)
        /\ (nth_error (getdata (strip_background img bg_rgb)) i = Some transparent_white
            <-> rgb_of p = bg_rgb))
  /\ (exists out,
        generate L config = Return out
        /\ size_w out = size_w img
        /\ size_h out = size_h img
        /\ List.length (getdata out) = List.length (getdata img)
        /\ (resize_fits L ->
            0 <= size_w img < 2 ^ 31 ->
            0 <= size_h img < 2 ^ 31 ->
            List.length (getdata img) = Z.to_nat (size_w img * size_h img) ->
            forall x y,
              in_image img x y = true ->
              in_centre (size_w img) (size_h img)
                        (22 * Z.min (size_w img) (size_h img) / 100 + 8) x y = false ->
              getpixel out x y = getpixel (strip_background img bg_rgb) x y)).
Proof.
  intros Ht Hc Hr Ho Hbg.
  assert (Hgen : generate L config = apply_logo L config (strip_background img bg_rgb)).
  { rewrite (generate_not_blank L config Hc).
    unfold generate_checked, apply_transparency. rewrite Hr, Ht. simpl.
    rewrite Hbg. reflexivity. }
  assert (Hslen : List.length (getdata (strip_background img bg_rgb))
                  = List.length (getdata img))
    by (unfold strip_background; simpl; apply length_map).
  split; [exact Hgen|].
  split; [intros Hl; rewrite Hgen; unfold apply_logo; now rewrite Hl|].
  split; [reflexivity|]. split; [reflexivity|].
  split; [exact Hslen|].
  split.
  - intros i p Hp.
    assert (Ha : band_a p = 255).
    { unfold opaque in Ho. rewrite Forall_forall in Ho.
      apply Ho. eapply nth_error_In; eauto. }
    rewrite strip_background_nth, Hp. simpl.
    destruct (matches_bg bg_rgb p) eqn:Hm.
    + apply matches_bg_iff in Hm. repeat split; auto; congruence.
    + assert (Hn : rgb_of p <> bg_rgb).
      { intros E. apply matches_bg_iff in E. congruence. }
      repeat split; auto; try congruence.
      intros E. exfalso. inversion E; subst p. discriminate Ha.
  - rewrite Hgen. unfold apply_logo. destruct (has_logo L config).
    + destruct (add_logo_returns L (strip_background img bg_rgb) (logo_path config))
        as [out Hout].
      exists out.
      destruct (add_logo_size L _ out _ Hout) as (Sw & Sh & Sl).
      split_all; auto; [congruence|].
      intros Hfit Hw Hh Hlen x y Hin Hcentre.
      apply (add_logo_outside_centre L (strip_background img bg_rgb) out (logo_path config));
        auto.
      rewrite Hslen. exact Hlen.
    + exists (strip_background img bg_rgb). split_all; auto.
Qed.

(** The 3x3 cross of [Demo] on white, keyed on "#ffffff": the four white
    corners become transparent. *)
Lemma transparent_background_keying_witness :
  generate Demo.lib (Demo.with_transparency Demo.plain)
  = Return (mkImage 3 3
      [transparent_white; Demo.black; transparent_white;
       Demo.black; Demo.black; Demo.black;
       transparent_white; Demo.black; transparent_white]).
Proof.
  assert (H := transparent_background_keying Demo.lib
                 (Demo.with_transparency Demo.plain) Demo.cross (255, 255, 255)).
  destruct H as (_ & H & _).
  - reflexivity.
  - intros Hb. specialize (Hb 104%N). simpl in Hb.
    assert (F : isspace 104 = true) by (apply Hb; left; reflexivity).
    discriminate F.
  - reflexivity.
  - unfold opaque, Demo.cross. simpl. repeat constructor.
  - reflexivity.
  - rewrite H by reflexivity. reflexivity.
Defined.

Lemma hello_not_blank : ~ blank (lit "hello").
Proof.
  intros Hb. specialize (Hb 104%N).
  assert (F : isspace 104 = true) by (apply Hb; left; reflexivity).
  discriminate F.
Qed.

Lemma chequered_opaque : opaque chequered.
Proof.
  unfold opaque, chequered. cbn [getdata]. apply Forall_forall. intros p Hin.
  apply in_map_iff in Hin. destruct Hin as (i & <- & _).
  destruct (Nat.even i); reflexivity.
Qed.

(** C2, as stated, fails: it holds of the pixels [generate] returns only
    where the logo's pad does not cover them. On the 29x29 rendering that is
    black and white in turn, with a white background keyed out and the logo
    logo.png, the pixel at (10, 9) is white in the rendering -- its RGB is
    the background colour -- and (255, 255, 255, 255) in the result, not
    (255, 255, 255, 0): it lies in the border of the pad, which is pasted
    after the keying. *)
Lemma transparent_keying_fails_under_logo :
  ~ (forall (L : Lib) (config : QRConfig) (img out : image) (bg_rgb : Z * Z * Z),
       transparent_bg config = true ->
       ~ blank (content config) ->
       render L config = Return img ->
       opaque img ->
       ImageColor_getrgb L (bg_color config) = Return bg_rgb ->
       generate L config = Return out ->
       forall i p,
         nth_error (getdata img) i = Some p ->
         rgb_of p = bg_rgb ->
         nth_error (getdata out) i = Some transparent_white).
Proof.
  intros H.
  destruct (generate chequered_lib transparent_with_logo) as [out|e] eqn:G;
    [|vm_compute in G; discriminate G].
  specialize (H chequered_lib transparent_with_logo chequered out (255, 255, 255)
                eq_refl hello_not_blank eq_refl chequered_opaque eq_refl G
                271%nat Demo.white eq_refl eq_refl).
  assert (G' : match generate chequered_lib transparent_with_logo with
               | Return im => nth_error (getdata im) 271
               | Raise _ => None
               end = Some opaque_white) by (vm_compute; reflexivity).
  rewrite G in G'. rewrite G' in H. discriminate H.
Qed.

(** The same run of [generate], pixel by pixel: (1, 0), white and far from
    the logo, is keyed out; (10, 9), white and under the border of the
    pad, is opaque white; (13, 13), under the logo, is the logo's red. *)
Example keying_and_logo :
  (out <- generate chequered_lib transparent_with_logo ;;
   Return (getpixel chequered 1 0, getpixel out 1 0,
           getpixel chequered 10 9, getpixel out 10 9, getpixel out 13 13))
  = Return (Demo.white, transparent_white,
            Demo.white, opaque_white, (255, 0, 0, 255)).
Proof. vm_compute. reflexivity. Qed.

(** ** The window: background colour and transparency *)

Lemma handle_in_step (s : window) (g : gesture) :
  colours_in_step s -> colours_in_step (handle s g).
Proof.
  destruct s as [cfg last chk en bt qt]. unfold colours_in_step.
  cbn [win_config _last_bg_color transparent_check bg_color_btn_enabled].
  intros (Ht & He & Hl).
  destruct g as [| |color|color|text auto_opt quiet]; cbn [handle].
  - destruct chk; unfold setChecked, on_transparent_changed; cbn; auto.
    destruct (truthy last); cbn; split_all; auto; discriminate.
  - destruct chk; unfold reset_colors, setChecked, on_transparent_changed; cbn;
      split_all; auto; discriminate.
  - cbn [bg_color_btn_enabled]. subst en.
    destruct chk; cbn [negb]; [cbn; auto|].
    destruct color as [name|]; cbn; auto. split_all; auto; discriminate.
  - destruct color as [name|]; cbn; auto.
  - unfold do_generate_preview. destruct (preview_content text); cbn; auto.
Qed.

Lemma after_in_step (gestures : list gesture) : colours_in_step (window_after gestures).
Proof.
  unfold window_after.
  assert (G : forall s, colours_in_step s -> colours_in_step (fold_left handle gestures s)).
  { induction gestures as [|g l IH]; intros s H; [exact H|].
    cbn [fold_left]. apply IH, handle_in_step, H. }
  apply G. unfold colours_in_step. cbn. split_all; auto; discriminate.
Qed.

(** X17. After every sequence of clicks on the transparency box, the two
    colour buttons and the reset button, and of previews: the configuration
    says transparent exactly when the box is checked, and the background
    button is enabled exactly when it is not. Checking or unchecking the box
    never changes the background colour, and doing both gives back the
    configuration as it was. A colour picked for the background is the
    configured one afterwards, with the box unchecked; while the box is
    checked the button is disabled and a click on it changes nothing. *)
Theorem transparency_keeps_the_colour (gestures : list gesture) (name : str) :
  let s := window_after gestures in
  transparent_bg (win_config s) = transparent_check s
  /\ bg_color_btn_enabled s = negb (transparent_check s)
  /\ bg_color (win_config (handle s ToggleTransparent)) = bg_color (win_config s)
  /\ transparent_check (handle s ToggleTransparent) = negb (transparent_check s)
  /\ win_config (handle (handle s ToggleTransparent) ToggleTransparent) = win_config s
  /\ (transparent_check s = false ->
      bg_color (win_config (handle s (ClickBackground (Some name)))) = name
      /\ transparent_check (handle s (ClickBackground (Some name))) = false)
  /\ (transparent_check s = true ->
      handle s (ClickBackground (Some name)) = s)
  /\ bg_color (win_config (handle s ClickReset)) = lit "#ffffff"
  /\ transparent_check (handle s ClickReset) = false.
Proof.
  intros s. destruct (after_in_step gestures) as (Ht & He & Hl). fold s in Ht, He, Hl.
  destruct s as [cfg last chk en bt qt].
  cbn [win_config _last_bg_color transparent_check bg_color_btn_enabled] in *.
  subst en. destruct cfg as [c bs ec qc bc tb ao qz lp].
  cbn [transparent_bg bg_color] in *. subst tb.
  destruct chk.
  - specialize (Hl eq_refl). subst last.
    split_all; try reflexivity; try discriminate.
    + unfold handle, setChecked, on_transparent_changed. cbn.
      destruct (truthy bc); reflexivity.
    + unfold handle, setChecked, on_transparent_changed. cbn.
      destruct (truthy bc); reflexivity.
  - split_all; try reflexivity; try discriminate.
    + unfold handle, setChecked, on_transparent_changed. cbn.
      destruct (truthy bc); reflexivity.
    + intros _. split; reflexivity.
Qed.
